(** * matrix-rain: a shallow embedding of [matrix.py] and its properties

    The program animates falling streams of glyphs in a curses terminal.
    The embedding follows the source function by function:

    - module constants and the [options] dictionary;
    - the curses library and Python's [random] module as an environment
      ([Env]): screen size, attribute constants, and a tape of random draws;
    - a state-and-exception monad [M] over the mutable store ([world]):
      the shared [pool] list, the [options] dictionary, the position on the
      random tape and the log of [addstr] calls;
    - the generators [animate_rain] and [rain] as explicit resumable states
      ([anim], [rain_gen]) with a resume function each;
    - the main loop as a step function over program points.

    [addstr] is recorded, not interpreted: the store keeps the cells
    written, oldest first, and a write outside the window is recorded
    like any other instead of raising. [rain] can go round its loop without ever
    yielding (on a screen without lines), so resuming it takes a bound
    [fuel] on the rounds; [time.sleep] has no counterpart. *)

From Stdlib Require Import ZArith List Lia Bool Permutation FinFun.
Import ListNotations.
Local Open Scope Z_scope.

(** ** Environment: what curses and [random] provide *)

Class Env := {
  LINES : Z;                 (* curses.LINES *)
  COLS : Z;                  (* curses.COLS *)
  COLOR_WHITE : Z;           (* curses.COLOR_WHITE *)
  A_STANDOUT : Z;            (* curses.A_STANDOUT *)
  A_BOLD : Z;                (* curses.A_BOLD *)
  ERR : Z;                   (* curses.ERR, what getch returns with no key *)
  color_pair : Z -> Z;       (* curses.color_pair *)
  can_change_color : bool;   (* curses.can_change_color() *)
  tape : nat -> Z            (* the successive draws of the random module *)
}.

(** ** Module constants *)

Definition FALLING_SPEED : Z := 2.
Definition MAX_RAIN_COUNT : Z := 10.
Definition COLOR_STEP : Z := 20.
Definition NUMBER_OF_COLOR : Z := 50.
Definition START_COLOR_NUM : Z := 128.

(** [ord(' ')] and [ord('h')]. *)
Definition ord_space : Z := 32.
Definition ord_h : Z := 104.

(** Python's [range(a, b)]; it is empty when [b <= a]. *)
Definition range (a b : Z) : list Z :=
  map (fun k => a + Z.of_nat k) (seq 0 (Z.to_nat (b - a))).

(** [get_matrix_code_chars]: code points of the glyphs. *)
Definition get_matrix_code_chars : list Z :=
  range 0x21 0x7E ++ range 0xFF66 0xFF9D.

Definition MATRIX_CODE_CHARS : list Z :=
  Eval vm_compute in get_matrix_code_chars.

(** ** The mutable store *)

(** The [options] dictionary, with its three keys. *)
Record opts := {
  opt_head : Z;    (* options['head']  *)
  opt_speed : Z;   (* options['speed'] *)
  opt_count : Z    (* options['count'] *)
}.

(** One [stdscr.addstr(y, x, ch, attr)] call with a one-character string. *)
Record cell := {
  c_row : Z;
  c_col : Z;
  c_glyph : Z;
  c_attr : Z
}.

Record world := {
  pool : list Z;        (* the list shared by main and every rain generator *)
  options : opts;
  rng : nat;            (* how many random draws were consumed *)
  screen : list cell    (* the addstr calls issued so far, oldest first *)
}.

Inductive exn := IndexError | ValueError.

Inductive res (A : Type) :=
| Ok (a : A) (w : world)
| Raise (e : exn)
| OutOfFuel.
Arguments Ok {A} a w.
Arguments Raise {A} e.
Arguments OutOfFuel {A}.

Definition M (A : Type) : Type := world -> res A.

Definition ret {A} (a : A) : M A := fun w => Ok a w.

Definition bind {A B} (m : M A) (k : A -> M B) : M B :=
  fun w => match m w with
           | Ok a w' => k a w'
           | Raise e => Raise e
           | OutOfFuel => OutOfFuel
           end.

Definition raise {A} (e : exn) : M A := fun _ => Raise e.

Notation "x <- m ;; k" := (bind m (fun x => k))
  (at level 61, m at next level, right associativity).
Notation "m ;; k" := (bind m (fun _ => k))
  (at level 61, right associativity).

Definition gets {A} (f : world -> A) : M A := fun w => Ok (f w) w.

Definition set_pool (p : list Z) : M unit :=
  fun w => Ok tt {| pool := p; options := options w;
                    rng := rng w; screen := screen w |}.

Definition set_options (o : opts) : M unit :=
  fun w => Ok tt {| pool := pool w; options := o;
                    rng := rng w; screen := screen w |}.

(** [for i in l: body(i)]. *)
Fixpoint for_ {A} (l : list A) (body : A -> M unit) : M unit :=
  match l with
  | [] => ret tt
  | i :: t => body i ;; for_ t body
  end.

(** [l.remove(x)]: the first occurrence goes, [ValueError] without one. *)
Fixpoint list_remove (x : Z) (l : list Z) : option (list Z) :=
  match l with
  | [] => None
  | y :: t => if x =? y then Some t
              else option_map (cons y) (list_remove x t)
  end.

Section Program.
Context {env : Env}.

(** *** The random module *)

(** One draw in [0, n). *)
Definition draw (n : Z) : M Z :=
  fun w => Ok (tape (rng w) mod n)
              {| pool := pool w; options := options w;
                 rng := S (rng w); screen := screen w |}.

(** [random.choice(l)]; [IndexError] on an empty sequence. *)
Definition random_choice (l : list Z) : M Z :=
  match l with
  | [] => raise IndexError
  | d :: _ => k <- draw (Z.of_nat (length l)) ;; ret (nth (Z.to_nat k) l d)
  end.

(** [random.randint(a, b)]; [ValueError] on an empty range. *)
Definition randint (a b : Z) : M Z :=
  if b <? a then raise ValueError
  else k <- draw (b - a + 1) ;; ret (a + k).

(** *** Head styles and options *)

Definition HEAD_STANDOUT : Z := Z.lor COLOR_WHITE A_STANDOUT.
Definition HEAD_BOLD : Z := Z.lor COLOR_WHITE A_BOLD.

(** The module-level [options] dictionary. *)
Definition options0 : opts :=
  {| opt_head := HEAD_STANDOUT;
     opt_speed := FALLING_SPEED;
     opt_count := MAX_RAIN_COUNT |}.

(** [config]: the two assignments to [options]. The calls before them,
    [curs_set], [nodelay] and [init_colors], do not touch the store;
    [init_colors] is modelled on its own below, and a terminal where one
    of them raises is outside the model. *)
Definition config : M unit :=
  o <- gets options ;;
  set_options {| opt_head := opt_head o;
                 opt_speed := opt_speed o;
                 opt_count := COLS / 2 |} ;;
  o <- gets options ;;
  set_options {| opt_head := opt_head o;
                 opt_speed := 1 + LINES / 25;
                 opt_count := opt_count o |}.

(** [init_colors] sets the global from the terminal's capability. *)
Definition USE_GRADIENT : bool := can_change_color.

Definition random_char : M Z := random_choice MATRIX_CODE_CHARS.

Definition random_rain_length : M Z := randint (LINES / 2) LINES.

(** [stdscr.addstr(y, x, ch, attr)] with a one-character string. The
    call is recorded with its arguments as given, also when the cell lies
    outside the window: there curses raises [curses.error], as it does at
    the bottom right cell, which the model does not do. What is proved of
    a run therefore holds of the program as far as the cells recorded are
    [in_bounds] and left of the last column, which is proved of the main
    loop and assumed of the painting functions on their own. *)
Definition addstr (y x ch attr : Z) : M unit :=
  fun w => Ok tt {| pool := pool w; options := options w; rng := rng w;
                    screen := screen w ++
                      [{| c_row := y; c_col := x;
                          c_glyph := ch; c_attr := attr |}] |}.

(** *** Painting *)

(** The local [color_num] of [get_color] when it returns. *)
Definition color_num (i head : Z) : Z :=
  let color_num := NUMBER_OF_COLOR - (head - i) + 1 in
  if color_num <? 0 then 0 else color_num.

Definition get_color (i head tail : Z) : Z :=
  color_pair (START_COLOR_NUM + color_num i head).

Definition show_head (head x : Z) : M unit :=
  if head <? LINES then
    ch <- random_char ;;
    o <- gets options ;;
    addstr head x ch (opt_head o)
  else ret tt.

Definition show_body (head middle tail x : Z) : M unit :=
  if USE_GRADIENT then
    for_ (range tail (Z.min head LINES)) (fun i =>
      ch <- random_char ;;
      addstr i x ch (get_color i head tail))
  else
    for_ (range tail (Z.min middle LINES)) (fun i =>
      ch <- random_char ;;
      addstr i x ch (color_pair 1)) ;;
    for_ (range middle (Z.min head LINES)) (fun i =>
      ch <- random_char ;;
      addstr i x ch (Z.lor (color_pair 1) A_BOLD)).

Definition show_tail (tail x speed : Z) : M unit :=
  for_ (range (Z.max 0 (tail - speed)) (Z.min tail LINES)) (fun i =>
    addstr i x ord_space (color_pair 0)).

(** *** The generator [animate_rain] *)

(** The frame of a suspended [animate_rain]: its parameters and locals. *)
Record anim := {
  a_x : Z;
  a_max_length : Z;
  a_speed : Z;
  a_head : Z;
  a_middle : Z;
  a_tail : Z
}.

(** Calling [animate_rain(stdscr, x, max_length, speed)]: nothing runs yet,
    the first resume starts at [head, middle, tail = 0, 0, 0]. *)
Definition animate_rain (x max_length speed : Z) : anim :=
  {| a_x := x; a_max_length := max_length; a_speed := speed;
     a_head := 0; a_middle := 0; a_tail := 0 |}.

(** Resuming the generator: the loop test, then one iteration up to the
    [yield] ([Some]), or the end of the generator ([None]). *)
Definition animate_next (a : anim) : M (option anim) :=
  if a_tail a <? LINES then
    let head := a_head a in
    let middle := head - a_max_length a / 2 in
    let middle := if middle <? 0 then 0 else middle in
    let tail := head - a_max_length a in
    tail <- (if tail <? 0 then ret 0
             else show_tail tail (a_x a) (a_speed a) ;; ret tail) ;;
    show_body head middle tail (a_x a) ;;
    show_head head (a_x a) ;;
    ret (Some {| a_x := a_x a; a_max_length := a_max_length a;
                 a_speed := a_speed a;
                 a_head := head + a_speed a;
                 a_middle := middle; a_tail := tail |})
  else ret None.

(** *** The generator [rain] *)

Inductive rain_gen :=
| RainNew                        (* created by add_rain, never resumed *)
| RainIn (x : Z) (a : anim).     (* suspended inside [yield from], holding x *)

Definition pool_remove (x : Z) : M unit :=
  p <- gets pool ;;
  match list_remove x p with
  | Some p' => set_pool p'
  | None => raise ValueError
  end.

Definition pool_append (x : Z) : M unit :=
  p <- gets pool ;;
  set_pool (p ++ [x]).

(** The body of [while True] from its top to the next [yield]. An animation
    that ends without a yield sends the loop round again; [fuel] bounds the
    number of rounds. *)
Fixpoint rain_loop (fuel : nat) : M rain_gen :=
  match fuel with
  | O => fun _ => OutOfFuel
  | S fuel' =>
      p <- gets pool ;;
      x <- random_choice p ;;
      pool_remove x ;;
      max_length <- random_rain_length ;;
      o <- gets options ;;
      speed <- randint 1 (opt_speed o) ;;
      r <- animate_next (animate_rain x max_length speed) ;;
      match r with
      | Some a => ret (RainIn x a)
      | None => pool_append x ;; rain_loop fuel'
      end
  end.

(** [next(r)] on a rain generator. *)
Definition rain_next (fuel : nat) (g : rain_gen) : M rain_gen :=
  match g with
  | RainNew => rain_loop fuel
  | RainIn x a =>
      r <- animate_next a ;;
      match r with
      | Some a' => ret (RainIn x a')
      | None => pool_append x ;; rain_loop fuel
      end
  end.

(** *** The main loop *)

Definition update_style : M unit :=
  o <- gets options ;;
  set_options {| opt_head := if opt_head o =? HEAD_STANDOUT
                             then HEAD_BOLD else HEAD_STANDOUT;
                 opt_speed := opt_speed o;
                 opt_count := opt_count o |}.

Definition add_rain (rains : list rain_gen) : M (list rain_gen) :=
  o <- gets options ;;
  p <- gets pool ;;
  if (Z.of_nat (length rains) <? opt_count o)
     && (0 <? Z.of_nat (length p))
  then ret (rains ++ [RainNew])
  else ret rains.

(** The key handling after [ch = stdscr.getch()]: [true] is [break]. *)
Definition handle_key (ch : Z) : M bool :=
  if negb (ch =? ERR) && negb (ch =? ord_space) then
    if ch =? ord_h then update_style ;; ret false
    else ret true
  else ret false.

(** Program points of the [while True] loop of [main]. *)
Inductive phase :=
| AtAddRain            (* about to call add_rain *)
| AtNext (i : nat)     (* in [for r in rains], about to visit index i *)
| AtGetch              (* about to poll the keyboard *)
| Stopped.             (* after [break] *)

(** The locals of [main]; [keys] are the results of the getch calls to
    come, and getch returns [ERR] once they are used up. *)
Record loop := {
  pc : phase;
  rains : list rain_gen;
  keys : list Z
}.

Fixpoint set_nth {A} (i : nat) (a : A) (l : list A) : list A :=
  match l, i with
  | [], _ => []
  | _ :: t, O => a :: t
  | y :: t, S i' => y :: set_nth i' a t
  end.

Definition getch (ks : list Z) : Z * list Z :=
  match ks with
  | [] => (ERR, [])
  | k :: ks' => (k, ks')
  end.

Definition main_step (fuel : nat) (l : loop) : M loop :=
  match pc l with
  | AtAddRain =>
      rs <- add_rain (rains l) ;;
      ret {| pc := AtNext 0; rains := rs; keys := keys l |}
  | AtNext i =>
      match nth_error (rains l) i with
      | Some r =>
          r' <- rain_next fuel r ;;
          ret {| pc := AtNext (S i); rains := set_nth i r' (rains l);
                 keys := keys l |}
      | None => ret {| pc := AtGetch; rains := rains l; keys := keys l |}
      end
  | AtGetch =>
      let (ch, ks) := getch (keys l) in
      stop <- handle_key ch ;;
      ret {| pc := if stop then Stopped else AtAddRain;
             rains := rains l; keys := ks |}
  | Stopped => ret l
  end.

Fixpoint main_run (fuel : nat) (n : nat) (l : loop) : M loop :=
  match n with
  | O => ret l
  | S n' => l' <- main_step fuel l ;; main_run fuel n' l'
  end.

(** The store when the module is loaded: [options] as written, an empty
    screen; [pool] does not exist yet. *)
Definition boot (seed : nat) : world :=
  {| pool := []; options := options0; rng := seed; screen := [] |}.

(** [main], observed for [n] steps of its loop: [config] runs, then
    [rains = []] and [pool = list(range(curses.COLS - 1))]. The three
    [addstr] calls of the splash screen and the blocking [getch] after
    them come before the loop and are not modelled: on a terminal too
    small for the splash texts the program raises there and never
    reaches the loop, so the model speaks of the terminals where the
    splash fits, and of the loop from its first iteration. *)
Definition main (fuel n : nat) (ks : list Z) : M loop :=
  config ;;
  set_pool (range 0 (COLS - 1)) ;;
  main_run fuel n {| pc := AtAddRain; rains := []; keys := ks |}.

End Program.

(** ** Observing one stream *)

Section Observing.
Context {env : Env}.

(** [n] calls of [next] on an [animate_rain] generator: the frame it is
    suspended in after the n-th yield, or [None] when the generator ended
    before yielding n times. *)
Fixpoint animate_iter (n : nat) (a : anim) : M (option anim) :=
  match n with
  | O => ret (Some a)
  | S n' =>
      r <- animate_next a ;;
      match r with
      | Some a' => animate_iter n' a'
      | None => ret None
      end
  end.

End Observing.

(** * Predicates used in the proofs *)

(** [wp total m w Q]: running [m] from [w] returns a value and a store
    satisfying [Q]. With [total = false] a raised exception or exhausted
    fuel is accepted as well (partial correctness); with [total = true] it
    is not. *)
Definition wp {A} (total : bool) (m : M A) (w : world)
           (Q : A -> world -> Prop) : Prop :=
  match m w with
  | Ok a w' => Q a w'
  | _ => if total then False else True
  end.

(** The column a generator holds, if any. *)
Definition holds (g : rain_gen) : list Z :=
  match g with
  | RainNew => []
  | RainIn x _ => [x]
  end.

(** The columns held by the generators of the list. *)
Definition held (rs : list rain_gen) : list Z := flat_map holds rs.

Definition is_new (g : rain_gen) : bool :=
  match g with
  | RainNew => true
  | RainIn _ _ => false
  end.

(** How many generators of the list were never resumed. *)
Definition news (rs : list rain_gen) : nat := length (filter is_new rs).

Section Predicates.
Context {env : Env}.

(** A cell of column [x] on a row of the screen. *)
Definition cell_ok (x : Z) (c : cell) : Prop :=
  c_col c = x /\ 0 <= c_row c < LINES.

(** Only the random tape moved. *)
Definition quiet (w w' : world) : Prop :=
  pool w' = pool w /\ options w' = options w /\ screen w' = screen w.

(** [pool] and [options] are untouched, and the cells written since [w]
    all satisfy [P]. *)
Definition wrote (P : cell -> Prop) (w w' : world) : Prop :=
  pool w' = pool w /\ options w' = options w /\
  exists cs, screen w' = screen w ++ cs /\ Forall P cs.

(** The cells written since [w] all lie in column [x], on rows of the
    screen. *)
Definition painted (x : Z) (w w' : world) : Prop := wrote (cell_ok x) w w'.

(** The frame of [animate_rain] after one more iteration of its loop. *)
Definition advance (a : anim) : anim :=
  {| a_x := a_x a; a_max_length := a_max_length a; a_speed := a_speed a;
     a_head := a_head a + a_speed a;
     a_middle := Z.max 0 (a_head a - a_max_length a / 2);
     a_tail := Z.max 0 (a_head a - a_max_length a) |}.

(** The same on frames alone. *)
Fixpoint advances (n : nat) (a : anim) : option anim :=
  match n with
  | O => Some a
  | S n' => if a_tail a <? LINES then advances n' (advance a) else None
  end.

(** What holds of the frame of a suspended [animate_rain] once it has run
    at least one iteration: [middle] and [tail] were computed from the head
    the last iteration started with, [a_head a - a_speed a]. *)
Definition anim_ok (x : Z) (a : anim) : Prop :=
  a_x a = x /\ 1 <= a_speed a /\ 0 <= a_max_length a /\
  a_speed a <= a_head a /\
  a_middle a = Z.max 0 (a_head a - a_speed a - a_max_length a / 2) /\
  a_tail a = Z.max 0 (a_head a - a_speed a - a_max_length a).

(** [rain] has taken a column [x] out of the list [p] and run the first
    iteration of a new animation in it. *)
Definition started (p : list Z) (w : world) (g : rain_gen) (w' : world)
  : Prop :=
  exists x a,
    g = RainIn x a /\ anim_ok x a /\ a_head a = a_speed a /\
    In x p /\ Permutation p (x :: pool w') /\
    options w' = options w /\
    exists cs, screen w' = screen w ++ cs /\ Forall (cell_ok x) cs.

(** A frame of a stream of length [len] and speed [speed]: the tail is
    not ahead of where the next iteration will put it. *)
Definition streaming (len speed : Z) (a : anim) : Prop :=
  a_max_length a = len /\ a_speed a = speed /\ 0 <= a_head a /\
  0 <= a_tail a <= Z.max 0 (a_head a - len).

(** How many more iterations run after the one that starts with head [h]:
    those whose tail, [h + k * speed - len], is still on the screen. *)
Definition rounds_left (len speed h : Z) : Z :=
  Z.max 0 ((LINES + len - h + speed - 1) / speed).

Definition gen_ok (g : rain_gen) : Prop :=
  match g with
  | RainNew => True
  | RainIn x a => anim_ok x a
  end.

(** A cell of the terminal. *)
Definition in_bounds (c : cell) : Prop :=
  0 <= c_row c < LINES /\ 0 <= c_col c < COLS.

Record Inv (l : loop) (w : world) : Prop := {
  (* the free and the held columns are the columns 0 .. COLS-2 *)
  inv_part : Permutation (pool w ++ held (rains l)) (range 0 (COLS - 1));
  (* a generator that was not resumed yet will find a free column *)
  inv_free : (news (rains l) <= length (pool w))%nat;
  (* the generators the sweep has passed all hold a column *)
  inv_swept : match pc l with
              | AtNext i => news (firstn i (rains l)) = 0%nat
              | _ => news (rains l) = 0%nat
              end;
  inv_count : Z.of_nat (length (rains l)) <= Z.max 0 (opt_count (options w));
  inv_opts : opt_count (options w) = COLS / 2 /\
             opt_speed (options w) = 1 + LINES / 25;
  inv_head : opt_head (options w) = HEAD_STANDOUT \/
             opt_head (options w) = HEAD_BOLD;
  inv_gens : Forall gen_ok (rains l);
  inv_screen : Forall in_bounds (screen w)
}.

End Predicates.

(** The clamp of the specification: [v] brought into [lo, hi]. *)
Definition clamp (v lo hi : Z) : Z := Z.max lo (Z.min v hi).

(** ** Two terminals *)

(** A terminal of 20 lines and 10 columns that can redefine colours, with
    the values ncurses gives the constants; the random draws count up in
    steps of 7. *)
Definition term_20x10 : Env :=
  {| LINES := 20; COLS := 10;
     COLOR_WHITE := 7; A_STANDOUT := 65536; A_BOLD := 2097152;
     ERR := -1;
     color_pair := fun n => Z.shiftl n 8;
     can_change_color := true;
     tape := fun n => 3 + 7 * Z.of_nat n |}.

(** A terminal window squeezed to no lines at all, four columns wide. *)
Definition term_0x4 : Env :=
  {| LINES := 0; COLS := 4;
     COLOR_WHITE := 7; A_STANDOUT := 65536; A_BOLD := 2097152;
     ERR := -1;
     color_pair := fun n => Z.shiftl n 8;
     can_change_color := false;
     tape := fun n => Z.of_nat n |}.

(** Permutations of lists of columns, by counting occurrences. *)
Ltac count_perm :=
  apply (Permutation_count_occ Z.eq_dec); intros c;
  repeat match goal with
         | H : Permutation _ _ |- _ =>
             let E := fresh "E" in
             pose proof (proj1 (Permutation_count_occ Z.eq_dec _ _) H c) as E;
             clear H
         end;
  repeat rewrite ?count_occ_app in *; cbn [count_occ] in *;
  repeat match goal with
         | |- context [Z.eq_dec ?a c] => destruct (Z.eq_dec a c)
         | H : context [Z.eq_dec ?a c] |- _ => destruct (Z.eq_dec a c)
         end;
  lia.

(** ** The palette *)

(** What [init_colors] asks of curses, call by call. *)
Inductive palette_call :=
| StartColor
| InitColor (n r g b : Z)
| InitPair (n fg bg : Z).

Section Palette.
Context {env : Env}.
Variables COLOR_GREEN COLOR_BLACK : Z.  (* curses.COLOR_GREEN, COLOR_BLACK *)

(** [init_colors]: the value it gives the global USE_GRADIENT, and the
    calls it makes. *)
Definition init_colors : bool * list palette_call :=
  let use_gradient := can_change_color in
  (use_gradient,
   StartColor ::
   if use_gradient then
     InitColor COLOR_WHITE 1000 1000 1000 ::
     InitColor COLOR_BLACK 0 0 0 ::
     flat_map (fun i =>
       let green_value :=
         (1000 - COLOR_STEP * NUMBER_OF_COLOR) + COLOR_STEP * i in
       [InitColor (START_COLOR_NUM + i) 0 green_value 0;
        InitPair (START_COLOR_NUM + i) (START_COLOR_NUM + i) COLOR_BLACK])
       (range 0 (NUMBER_OF_COLOR + 1))
   else [InitPair 1 COLOR_GREEN COLOR_BLACK]).

End Palette.

(** ** Reading the screen *)

(** What the terminal shows at row [r] of column [x] after the writes
    [cs]: the cell written there last, if any was. *)
Fixpoint cell_at (r x : Z) (cs : list cell) : option cell :=
  match cs with
  | [] => None
  | c :: t =>
      match cell_at r x t with
      | Some c' => Some c'
      | None => if (c_row c =? r) && (c_col c =? x) then Some c else None
      end
  end.

(** The blank show_tail writes on row [i] of column [x]. *)
Definition blank_cell {env : Env} (x i : Z) : cell :=
  {| c_row := i; c_col := x; c_glyph := ord_space; c_attr := color_pair 0 |}.

(** After the writes [cs] row [r] of column [x] shows a blank. *)
Definition shows_blank {env : Env} (r x : Z) (cs : list cell) : Prop :=
  exists c, cell_at r x cs = Some c /\
            c_glyph c = ord_space /\ c_attr c = color_pair 0.

(** One [next] took the generator [g] to [g']: a running animation
    went one iteration further in its column; a generator that was new,
    or whose animation had ended, is one iteration into a new one. *)
Definition resumed {env : Env} (g g' : rain_gen) : Prop :=
  match g with
  | RainNew => exists x a, g' = RainIn x a /\ a_head a = a_speed a
  | RainIn x a =>
      if a_tail a <? LINES then g' = RainIn x (advance a)
      else exists x' a', g' = RainIn x' a' /\ a_head a' = a_speed a'
  end.

(** The length and the speed of a stream are within what [rain] draws. *)
Definition drawn {env : Env} (g : rain_gen) : Prop :=
  match g with
  | RainNew => True
  | RainIn _ a =>
      LINES / 2 <= a_max_length a <= LINES /\
      1 <= a_speed a <= 1 + LINES / 25
  end.

(** * Reasoning about the store monad *)

Lemma wp_ret {A} t (a : A) w (Q : A -> world -> Prop) :
  Q a w -> wp t (ret a) w Q.
Proof. exact (fun H => H). Qed.

Lemma wp_bind {A B} t (m : M A) (k : A -> M B) w (Q : B -> world -> Prop) :
  wp t m w (fun a w' => wp t (k a) w' Q) -> wp t (bind m k) w Q.
Proof. unfold wp, bind. destruct (m w); auto. Qed.

Lemma wp_mono {A} t (m : M A) w (P Q : A -> world -> Prop) :
  wp t m w P -> (forall a w', P a w' -> Q a w') -> wp t m w Q.
Proof. unfold wp. destruct (m w); auto. Qed.

Lemma wp_seq {A B} t (m : M A) (k : A -> M B) w P (Q : B -> world -> Prop) :
  wp t m w P -> (forall a w', P a w' -> wp t (k a) w' Q) ->
  wp t (bind m k) w Q.
Proof. intros Hm Hk. apply wp_bind. eapply wp_mono; eauto. Qed.

Lemma wp_gets {A} t (f : world -> A) w (Q : A -> world -> Prop) :
  Q (f w) w -> wp t (gets f) w Q.
Proof. exact (fun H => H). Qed.

Lemma wp_ok {A} t (m : M A) w Q a w' : wp t m w Q -> m w = Ok a w' -> Q a w'.
Proof. unfold wp. intros H E. now rewrite E in H. Qed.

Lemma wp_total_ok {A} (m : M A) w Q :
  wp true m w Q -> exists a w', m w = Ok a w' /\ Q a w'.
Proof. unfold wp. destruct (m w); [eauto | tauto | tauto]. Qed.

Lemma wp_trivial {A} (m : M A) w : wp false m w (fun _ _ => True).
Proof. unfold wp. now destruct (m w). Qed.

(** Take one bind apart with a known specification of its first part. *)
Tactic Notation "wp_step" constr(lem) "as" ident(v) ident(w) ident(H) :=
  eapply wp_seq; [ eapply lem; eauto | cbv beta; intros v w H ].

(** * Lists: ranges, removal *)

Lemma in_range a b i : In i (range a b) <-> a <= i < b.
Proof.
  unfold range. rewrite in_map_iff. split.
  - intros (k & <- & Hk). apply in_seq in Hk. lia.
  - intros H. exists (Z.to_nat (i - a)). split; [lia|].
    apply in_seq. lia.
Qed.

Lemma NoDup_range a b : NoDup (range a b).
Proof.
  unfold range. apply Injective_map_NoDup.
  - intros j k. lia.
  - apply seq_NoDup.
Qed.

Lemma count_occ_range a b c :
  count_occ Z.eq_dec (range a b) c
  = if (a <=? c) && (c <? b) then 1%nat else 0%nat.
Proof.
  pose proof (proj1 (NoDup_count_occ Z.eq_dec (range a b))
                    (NoDup_range a b) c) as Hle.
  pose proof (count_occ_In Z.eq_dec (range a b) c) as Hin.
  rewrite in_range in Hin.
  destruct ((a <=? c) && (c <? b)) eqn:E.
  - apply andb_true_iff in E. destruct E as [E1 E2].
    apply Z.leb_le in E1. apply Z.ltb_lt in E2.
    assert (count_occ Z.eq_dec (range a b) c > 0)%nat by (apply Hin; lia).
    lia.
  - destruct (count_occ Z.eq_dec (range a b) c) eqn:C; [reflexivity|].
    assert (a <= c < b) as [H1 H2] by (apply Hin; lia).
    apply Z.leb_le in H1. apply Z.ltb_lt in H2.
    rewrite H1, H2 in E. discriminate.
Qed.

Lemma list_remove_perm x l :
  In x l -> exists l', list_remove x l = Some l' /\ Permutation l (x :: l').
Proof.
  induction l as [|y t IH]; simpl; [tauto|]. intros H.
  destruct (Z.eqb_spec x y) as [->|Hne].
  - exists t. split; reflexivity.
  - destruct H as [H|H]; [congruence|].
    destruct (IH H) as (l' & -> & Hp). exists (y :: l'). split; [reflexivity|].
    rewrite Hp. apply perm_swap.
Qed.

Lemma list_remove_some x l l' :
  list_remove x l = Some l' -> In x l /\ Permutation l (x :: l').
Proof.
  revert l'. induction l as [|y t IH]; simpl; [discriminate|]. intros l'.
  destruct (Z.eqb_spec x y) as [->|Hne].
  - intros [= <-]. split; [now left | reflexivity].
  - destruct (list_remove x t) as [t'|]; [|discriminate].
    intros [= <-]. destruct (IH t' eq_refl) as [Hin Hp].
    split; [now right|]. rewrite Hp. apply perm_swap.
Qed.

(** * What each function does to the store *)

Section Effects.
Context {env : Env}.

Lemma quiet_wrote P w w' : quiet w w' -> wrote P w w'.
Proof.
  intros (Hp & Ho & Hs). repeat split; auto.
  exists []. rewrite app_nil_r. auto.
Qed.

Lemma wrote_refl P w : wrote P w w.
Proof. apply quiet_wrote. repeat split. Qed.

Lemma wrote_trans P w1 w2 w3 :
  wrote P w1 w2 -> wrote P w2 w3 -> wrote P w1 w3.
Proof.
  intros (Hp & Ho & cs & Hs & Hc) (Hp' & Ho' & cs' & Hs' & Hc').
  repeat split; try congruence.
  exists (cs ++ cs'). split.
  - rewrite Hs', Hs. now rewrite app_assoc.
  - apply Forall_app. auto.
Qed.

Lemma quiet_painted x w w' : quiet w w' -> painted x w w'.
Proof. apply quiet_wrote. Qed.

Lemma painted_refl x w : painted x w w.
Proof. apply wrote_refl. Qed.

Lemma painted_trans x w1 w2 w3 :
  painted x w1 w2 -> painted x w2 w3 -> painted x w1 w3.
Proof. apply wrote_trans. Qed.

Lemma draw_spec t n w : 0 < n ->
  wp t (draw n) w (fun k w' => 0 <= k < n /\ quiet w w').
Proof.
  intros Hn. unfold wp, draw. split.
  - apply Z.mod_pos_bound. exact Hn.
  - repeat split.
Qed.

Lemma random_choice_spec t l w : (t = true -> l <> []) ->
  wp t (random_choice l) w (fun x w' => In x l /\ quiet w w').
Proof.
  destruct l as [|d l'].
  - intros H. destruct t; [now destruct H | exact I].
  - intros _. unfold random_choice.
    eapply wp_seq; [apply draw_spec; simpl length; lia|].
    cbv beta. intros k w' [Hk Hq]. apply wp_ret. split; [|exact Hq].
    apply nth_In. lia.
Qed.

Lemma randint_spec t a b w : (t = true -> a <= b) ->
  wp t (randint a b) w (fun v w' => a <= v <= b /\ quiet w w').
Proof.
  intros H. unfold randint. destruct (Z.ltb_spec b a) as [Hlt|Hle].
  - destruct t; [|exact I]. specialize (H eq_refl). lia.
  - eapply wp_seq; [apply draw_spec; lia|].
    cbv beta. intros k w' [Hk Hq]. apply wp_ret. split; [lia|exact Hq].
Qed.

Lemma pool_remove_spec t x w : (t = true -> In x (pool w)) ->
  wp t (pool_remove x) w (fun _ w' =>
    In x (pool w) /\ Permutation (pool w) (x :: pool w') /\
    options w' = options w /\ screen w' = screen w).
Proof.
  intros H. unfold pool_remove. apply wp_bind, wp_gets.
  destruct (list_remove x (pool w)) as [p'|] eqn:E.
  - apply list_remove_some in E. destruct E as [Hin Hp].
    unfold wp, set_pool. simpl. auto.
  - destruct t; [|exact I]. specialize (H eq_refl).
    destruct (list_remove_perm x (pool w) H) as (l' & E' & _). congruence.
Qed.

Lemma pool_append_spec t x w :
  wp t (pool_append x) w (fun _ w' =>
    pool w' = pool w ++ [x] /\
    options w' = options w /\ screen w' = screen w).
Proof.
  unfold pool_append. apply wp_bind, wp_gets.
  unfold wp, set_pool. simpl. auto.
Qed.

Lemma addstr_wrote t (P : cell -> Prop) y x ch attr w :
  P {| c_row := y; c_col := x; c_glyph := ch; c_attr := attr |} ->
  wp t (addstr y x ch attr) w (fun _ w' => wrote P w w').
Proof.
  intros Hc. unfold wp, addstr, wrote. simpl. repeat split.
  eexists. split; [reflexivity|]. constructor; [exact Hc | constructor].
Qed.

Lemma addstr_spec t y x ch attr w : 0 <= y < LINES ->
  wp t (addstr y x ch attr) w (fun _ w' => painted x w w').
Proof.
  intros Hy. apply addstr_wrote. split; [reflexivity | exact Hy].
Qed.

Lemma for_wrote {A} t P (l : list A) (body : A -> M unit) :
  (forall i w, In i l -> wp t (body i) w (fun _ w' => wrote P w w')) ->
  forall w, wp t (for_ l body) w (fun _ w' => wrote P w w').
Proof.
  induction l as [|i l IH]; intros Hb w; simpl.
  - apply wp_ret, wrote_refl.
  - eapply wp_seq; [apply Hb; now left|].
    cbv beta. intros _ w1 H1.
    eapply wp_mono; [apply IH; intros; apply Hb; now right|].
    cbv beta. intros _ w2 H2. eapply wrote_trans; eauto.
Qed.

Lemma for_painted {A} t x (l : list A) (body : A -> M unit) :
  (forall i w, In i l -> wp t (body i) w (fun _ w' => painted x w w')) ->
  forall w, wp t (for_ l body) w (fun _ w' => painted x w w').
Proof. apply for_wrote. Qed.

Lemma MATRIX_CODE_CHARS_nonempty : MATRIX_CODE_CHARS <> [].
Proof. discriminate. Qed.

Lemma random_char_spec t w :
  wp t random_char w (fun _ w' => quiet w w').
Proof.
  eapply wp_mono.
  - apply random_choice_spec. intros _. apply MATRIX_CODE_CHARS_nonempty.
  - cbv beta. tauto.
Qed.

(** Paint one random glyph at row [i] of column [x]. *)
Lemma glyph_wrote t (P : cell -> Prop) x i attr w :
  (forall ch, P {| c_row := i; c_col := x; c_glyph := ch; c_attr := attr |}) ->
  wp t (ch <- random_char ;; addstr i x ch attr) w
     (fun _ w' => wrote P w w').
Proof.
  intros Hc. eapply wp_seq; [apply random_char_spec|].
  cbv beta. intros ch w1 Hq.
  eapply wp_mono; [apply addstr_wrote; apply Hc|].
  cbv beta. intros _ w2 Hp.
  eapply wrote_trans; [apply quiet_wrote|]; eauto.
Qed.

Lemma glyph_painted t x i attr w : 0 <= i < LINES ->
  wp t (ch <- random_char ;; addstr i x ch attr) w
     (fun _ w' => painted x w w').
Proof.
  intros Hi. apply glyph_wrote. intros ch. split; [reflexivity | exact Hi].
Qed.

Lemma show_head_spec t head x w : 0 <= head ->
  wp t (show_head head x) w (fun _ w' => painted x w w').
Proof.
  intros Hh. unfold show_head. destruct (Z.ltb_spec head LINES).
  - eapply wp_seq; [apply random_char_spec|].
    cbv beta. intros ch w1 Hq. apply wp_bind, wp_gets.
    eapply wp_mono; [apply addstr_spec; lia|].
    cbv beta. intros _ w2 Hp.
    eapply painted_trans; [apply quiet_painted|]; eauto.
  - apply wp_ret, painted_refl.
Qed.

Lemma show_body_spec t head middle tail x w : 0 <= tail -> 0 <= middle ->
  wp t (show_body head middle tail x) w (fun _ w' => painted x w w').
Proof.
  intros Ht Hm. unfold show_body. destruct USE_GRADIENT.
  - apply for_painted. intros i w0 Hi. apply in_range in Hi.
    apply glyph_painted. lia.
  - eapply wp_seq.
    + apply for_painted. intros i w0 Hi. apply in_range in Hi.
      apply glyph_painted. lia.
    + cbv beta. intros _ w1 H1. eapply wp_mono.
      * apply for_painted. intros i w0 Hi. apply in_range in Hi.
        apply glyph_painted. lia.
      * cbv beta. intros _ w2 H2. eapply painted_trans; eauto.
Qed.

(** In gradient mode the body is painted on the rows from the tail up to,
    not including, the head, each with the colour of [get_color]. *)
Lemma show_body_gradient t head middle tail x w :
  USE_GRADIENT = true ->
  wp t (show_body head middle tail x) w (fun _ w' =>
    wrote (fun c => tail <= c_row c < Z.min head LINES /\ c_col c = x /\
                    c_attr c = get_color (c_row c) head tail) w w').
Proof.
  intros Hg. unfold show_body. rewrite Hg.
  apply for_wrote. intros i w0 Hi. apply in_range in Hi.
  apply glyph_wrote. intros ch. cbn. auto.
Qed.

Lemma show_tail_spec t tail x speed w :
  wp t (show_tail tail x speed) w (fun _ w' => painted x w w').
Proof.
  unfold show_tail. apply for_painted. intros i w0 Hi.
  apply in_range in Hi. apply addstr_spec. lia.
Qed.

Lemma animate_next_spec t a w : 0 <= a_head a ->
  wp t (animate_next a) w (fun r w' =>
    if a_tail a <? LINES
    then r = Some (advance a) /\ painted (a_x a) w w'
    else r = None /\ w' = w).
Proof.
  intros Hh. unfold animate_next.
  destruct (a_tail a <? LINES); [|apply wp_ret; split; reflexivity].
  set (mid := a_head a - a_max_length a / 2).
  set (tl := a_head a - a_max_length a).
  eapply wp_seq with
    (P := fun v w' => v = Z.max 0 tl /\ painted (a_x a) w w').
  - destruct (Z.ltb_spec tl 0).
    + apply wp_ret. split; [lia | apply painted_refl].
    + wp_step show_tail_spec as u w1 H1.
      apply wp_ret. split; [lia | exact H1].
  - cbv beta. intros v w1 [-> H1].
    wp_step show_body_spec as u w2 H2.
    + lia.
    + destruct (mid <? 0) eqn:E; [lia|]. apply Z.ltb_ge in E. exact E.
    + wp_step show_head_spec as u' w3 H3.
      apply wp_ret. split.
      * unfold advance. f_equal. f_equal.
        destruct (Z.ltb_spec mid 0); subst mid; lia.
      * eapply painted_trans; [|exact H3].
        eapply painted_trans; eauto.
Qed.

End Effects.

(** * The rain generator *)

Section Rain.
Context {env : Env}.

Lemma anim_ok_advance x a : anim_ok x a -> anim_ok x (advance a).
Proof.
  intros (Hx & Hs & Hl & Hh & Hm & Ht). unfold anim_ok, advance. simpl.
  repeat split; try assumption; try lia; f_equal; lia.
Qed.

Lemma anim_ok_first x len speed : 1 <= speed -> 0 <= len ->
  anim_ok x (advance (animate_rain x len speed)).
Proof.
  intros Hs Hl. unfold anim_ok, advance, animate_rain. simpl.
  repeat split; try lia; f_equal; lia.
Qed.

Lemma half_le n : 0 <= n -> 0 <= n / 2 <= n.
Proof. intros H. split; [apply Z.div_pos; lia|]. apply Z.div_le_upper_bound; lia. Qed.

Lemma rain_loop_spec t fuel : forall w,
  (t = true -> 0 < LINES /\ (1 <= fuel)%nat /\ pool w <> [] /\
               1 <= opt_speed (options w)) ->
  wp t (rain_loop fuel) w (started (pool w) w).
Proof.
  induction fuel as [|fuel IH]; intros w Hpre.
  - unfold wp. simpl. destruct t; [|exact I].
    destruct (Hpre eq_refl) as (_ & Hf & _). lia.
  - cbn [rain_loop]. apply wp_bind, wp_gets.
    wp_step random_choice_spec as x w1 H. { intros Ht. apply Hpre, Ht. }
    destruct H as (Hx & Hp1 & Ho1 & Hs1).
    wp_step pool_remove_spec as u w2 H. { intros _. now rewrite Hp1. }
    destruct H as (_ & Hperm & Ho2 & Hs2). rewrite Hp1 in Hperm.
    wp_step randint_spec as len w3 H.
    { intros Ht. destruct (Hpre Ht) as (HL & _).
      apply half_le. lia. }
    destruct H as (Hlen & Hp3 & Ho3 & Hs3).
    apply wp_bind, wp_gets.
    wp_step randint_spec as speed w4 H.
    { intros Ht. destruct (Hpre Ht) as (_ & _ & _ & Hsp). congruence. }
    destruct H as (Hsp & Hp4 & Ho4 & Hs4).
    wp_step animate_next_spec as r w5 H. { simpl. lia. }
    simpl a_tail in H. simpl a_x in H.
    destruct (Z.ltb_spec 0 LINES) as [HL|HL].
    + destruct H as (-> & Hp5 & Ho5 & cs & Hs5 & Hcs).
      apply wp_ret. exists x, (advance (animate_rain x len speed)).
      split; [reflexivity|]. split.
      { apply anim_ok_first; [lia|]. pose proof (half_le LINES). lia. }
      split; [reflexivity|]. split; [exact Hx|]. split.
      { now rewrite Hp5, Hp4, Hp3. }
      split; [congruence|]. exists cs. split; [congruence | exact Hcs].
    + destruct H as (Hr & Hw). subst r w5.
      destruct t. { destruct (Hpre eq_refl) as (H0 & _). lia. }
      wp_step pool_append_spec as u' w6 H.
      destruct H as (Hp6 & Ho6 & Hs6).
      eapply wp_mono; [apply IH; discriminate|].
      cbv beta.
      intros g w7 (x' & a' & Hg & Hok & Hhd & Hin & Hpm & Ho7 & cs & Hs7 & Hcs).
      assert (Hsame : Permutation (pool w) (pool w6)).
      { rewrite Hp6, Hp4, Hp3. rewrite Hperm.
        change (x :: pool w2) with ([x] ++ pool w2).
        apply Permutation_app_comm. }
      exists x', a'.
      split; [exact Hg|]. split; [exact Hok|]. split; [exact Hhd|].
      split; [eapply Permutation_in; [symmetry; exact Hsame | exact Hin]|].
      split; [rewrite Hsame; exact Hpm|].
      split; [congruence|].
      exists cs. split; [congruence | exact Hcs].
Qed.

(** On a screen without lines no animation ever yields, and [rain] goes
    round its loop for ever: no amount of fuel lets it return. *)
Lemma rain_loop_no_lines fuel : forall w,
  LINES <= 0 -> wp false (rain_loop fuel) w (fun _ _ => False).
Proof.
  induction fuel as [|fuel IH]; intros w HL; [exact I|].
  cbn [rain_loop]. apply wp_bind, wp_gets.
  eapply wp_seq; [apply wp_trivial|]. cbv beta. intros x w1 _.
  eapply wp_seq; [apply wp_trivial|]. cbv beta. intros u w2 _.
  eapply wp_seq; [apply wp_trivial|]. cbv beta. intros len w3 _.
  apply wp_bind, wp_gets.
  eapply wp_seq; [apply wp_trivial|]. cbv beta. intros speed w4 _.
  wp_step animate_next_spec as r w5 H. { cbn. lia. }
  cbn [animate_rain a_tail] in H.
  destruct (Z.ltb_spec 0 LINES); [lia|]. destruct H as (Hr & _). subst r.
  eapply wp_seq; [apply wp_trivial|]. cbv beta. intros u' w6 _.
  apply IH. exact HL.
Qed.

(** [next(r)] on a generator suspended in an animation: either the
    animation goes on in the same column, or it has ended and the
    generator puts its column back and starts over. *)
Lemma rain_next_spec t fuel x a w :
  anim_ok x a ->
  (t = true -> 0 < LINES /\ (1 <= fuel)%nat /\ 1 <= opt_speed (options w)) ->
  wp t (rain_next fuel (RainIn x a)) w (fun g w' =>
    if a_tail a <? LINES
    then g = RainIn x (advance a) /\ painted x w w'
    else started (pool w ++ [x]) w g w').
Proof.
  intros Hok Hpre. cbn [rain_next].
  wp_step animate_next_spec as r w1 H.
  { destruct Hok as (_ & ? & _ & ? & _). lia. }
  destruct Hok as (Hx & Hrest). rewrite Hx in H.
  destruct (a_tail a <? LINES).
  - destruct H as (-> & Hp). apply wp_ret. split; [reflexivity | exact Hp].
  - destruct H as (Hr & Hw). subst r w1.
    wp_step pool_append_spec as u w2 H.
    destruct H as (Hp & Ho & Hs).
    eapply wp_mono.
    + apply rain_loop_spec. intros Ht. destruct (Hpre Ht) as (? & ? & ?).
      repeat split; try assumption; [|congruence].
      rewrite Hp. destruct (pool w); discriminate.
    + cbv beta.
      intros g w3 (x' & a' & Hg & Hok' & Hhd & Hin & Hpm & Ho3 & cs & Hs3 & Hcs).
      exists x', a'. rewrite Hp in Hin, Hpm.
      split; [exact Hg|]. split; [exact Hok'|]. split; [exact Hhd|].
      split; [exact Hin|]. split; [exact Hpm|]. split; [congruence|].
      exists cs. split; [congruence | exact Hcs].
Qed.

End Rain.

(** * The main loop and its invariant *)

Lemma held_app l1 l2 : held (l1 ++ l2) = held l1 ++ held l2.
Proof. apply flat_map_app. Qed.

Lemma news_app l1 l2 : news (l1 ++ l2) = (news l1 + news l2)%nat.
Proof. unfold news. now rewrite filter_app, length_app. Qed.

Lemma set_nth_app {A} (l1 : list A) r r' l2 :
  set_nth (length l1) r' (l1 ++ r :: l2) = l1 ++ r' :: l2.
Proof.
  induction l1 as [|a l1 IH]; simpl; [reflexivity|]. now rewrite IH.
Qed.

Lemma set_nth_length {A} i (a : A) l : length (set_nth i a l) = length l.
Proof.
  revert i. induction l as [|y l IH]; intros [|i]; simpl; auto.
Qed.

Lemma firstn_length_app {A} (l1 l2 : list A) :
  firstn (length l1) (l1 ++ l2) = l1.
Proof.
  induction l1 as [|a l1 IH]; simpl; [reflexivity|]. now rewrite IH.
Qed.

Lemma firstn_S_app {A} (l1 : list A) r l2 :
  firstn (S (length l1)) (l1 ++ r :: l2) = l1 ++ [r].
Proof.
  induction l1 as [|a l1 IH]; [reflexivity|].
  cbn [length app]. rewrite firstn_cons. now rewrite IH.
Qed.

Section MainLoop.
Context {env : Env}.

Lemma cell_ok_in_bounds x cs :
  0 <= x < COLS - 1 -> Forall (cell_ok x) cs -> Forall in_bounds cs.
Proof.
  intros Hx. apply Forall_impl. intros c [Hc Hr].
  split; [exact Hr | lia].
Qed.

Lemma add_rain_spec t rs w :
  wp t (add_rain rs) w (fun rs' w' =>
    w' = w /\
    rs' = if (Z.of_nat (length rs) <? opt_count (options w))
             && negb (match pool w with [] => true | _ => false end)
          then rs ++ [RainNew] else rs).
Proof.
  unfold add_rain. apply wp_bind, wp_gets. apply wp_bind, wp_gets.
  assert (E : (0 <? Z.of_nat (length (pool w)))
              = negb (match pool w with [] => true | _ => false end)).
  { destruct (pool w); simpl length; [reflexivity|].
    apply Z.ltb_lt. lia. }
  rewrite E.
  destruct (_ && _); apply wp_ret; split; reflexivity.
Qed.

Lemma update_style_spec t w :
  wp t update_style w (fun _ w' =>
    pool w' = pool w /\ screen w' = screen w /\ rng w' = rng w /\
    opt_speed (options w') = opt_speed (options w) /\
    opt_count (options w') = opt_count (options w) /\
    opt_head (options w') = if opt_head (options w) =? HEAD_STANDOUT
                            then HEAD_BOLD else HEAD_STANDOUT).
Proof.
  unfold update_style. apply wp_bind, wp_gets.
  unfold wp, set_options. simpl. repeat split.
Qed.

Lemma handle_key_spec t ch w :
  wp t (handle_key ch) w (fun stop w' =>
    pool w' = pool w /\ screen w' = screen w /\
    opt_speed (options w') = opt_speed (options w) /\
    opt_count (options w') = opt_count (options w) /\
    (opt_head (options w') = opt_head (options w) \/
     opt_head (options w') = HEAD_STANDOUT \/
     opt_head (options w') = HEAD_BOLD)).
Proof.
  unfold handle_key.
  destruct (negb (ch =? ERR) && negb (ch =? ord_space));
    [destruct (ch =? ord_h)|]; try (apply wp_ret; repeat split; now left).
  wp_step update_style_spec as u w1 H.
  destruct H as (Hp & Hs & _ & Hsp & Hc & Hh).
  apply wp_ret. repeat split; try assumption.
  right. rewrite Hh. destruct (_ =? _); auto.
Qed.

Lemma news_cons r l :
  news (r :: l) = ((if is_new r then 1 else 0) + news l)%nat.
Proof. unfold news. simpl. now destruct (is_new r). Qed.

Lemma holds_length r :
  (length (holds r) + (if is_new r then 1 else 0) = 1)%nat.
Proof. now destruct r. Qed.

(** The sweep resumes the generator at index [length l1]: it comes back
    holding column [x], taken from the pool or kept. *)
Lemma inv_resume l1 r l2 ks w x a w' :
  Inv {| pc := AtNext (length l1); rains := l1 ++ r :: l2; keys := ks |} w ->
  anim_ok x a ->
  Permutation (pool w ++ holds r) (x :: pool w') ->
  options w' = options w ->
  (exists cs, screen w' = screen w ++ cs /\ Forall (cell_ok x) cs) ->
  Inv {| pc := AtNext (S (length l1)); rains := l1 ++ RainIn x a :: l2;
         keys := ks |} w'.
Proof.
  intros [Hpart Hfree Hswept Hcount Hopts Hhead Hgens Hscr] Hok Hpm Ho
         (cs & Hs & Hcs).
  cbn [pc rains keys] in *.
  rewrite firstn_length_app in Hswept.
  rewrite news_app, news_cons in Hfree.
  rewrite held_app in Hpart. change (held (r :: l2)) with (holds r ++ held l2) in Hpart.
  assert (Hx : 0 <= x < COLS - 1).
  { apply in_range. eapply Permutation_in; [exact Hpart|].
    assert (In x (pool w ++ holds r)) as Hin.
    { eapply Permutation_in; [symmetry; exact Hpm | now left]. }
    apply in_app_or in Hin. apply in_or_app.
    destruct Hin as [Hin|Hin]; [now left|].
    right. apply in_or_app. right. apply in_or_app. now left. }
  pose proof (Permutation_length Hpm) as Hlen.
  rewrite length_app in Hlen. cbn [length] in Hlen.
  pose proof (holds_length r) as Hr.
  apply Forall_app in Hgens. destruct Hgens as [Hg1 Hg2].
  apply Forall_cons_iff in Hg2. destruct Hg2 as [_ Hg2].
  constructor; cbn [pc rains keys].
  - rewrite held_app. change (held (RainIn x a :: l2)) with (x :: held l2).
    count_perm.
  - rewrite news_app, news_cons. cbn [is_new]. lia.
  - rewrite firstn_S_app, news_app, Hswept. reflexivity.
  - rewrite Ho. rewrite length_app in *. exact Hcount.
  - rewrite Ho. exact Hopts.
  - rewrite Ho. exact Hhead.
  - apply Forall_app. split; [exact Hg1|]. constructor; assumption.
  - rewrite Hs. apply Forall_app. split; [exact Hscr|].
    eapply cell_ok_in_bounds; eauto.
Qed.

Lemma speed_bound_pos : 0 < LINES -> 1 <= 1 + LINES / 25.
Proof. intros H. pose proof (Z.div_pos LINES 25). lia. Qed.

(** Every step of the main loop keeps the invariant; on a terminal with
    at least one line, and one unit of fuel, every step also completes. *)
Lemma main_step_inv t fuel l w :
  (t = true -> 0 < LINES /\ (1 <= fuel)%nat) ->
  Inv l w -> wp t (main_step fuel l) w Inv.
Proof.
  intros Hpre HI. destruct l as [p rs ks]. unfold main_step.
  cbn [pc rains keys]. destruct p as [|i| |].
  - (* add_rain *)
    wp_step add_rain_spec as rs' w1 H. destruct H as (Hw & Hrs). subst w1 rs'.
    apply wp_ret.
    destruct HI as [Hpart Hfree Hswept Hcount Hopts Hhead Hgens Hscr].
    cbn [pc rains keys] in *.
    destruct (_ && _) eqn:E.
    + apply andb_true_iff in E. destruct E as [E1 E2].
      apply Z.ltb_lt in E1.
      assert (1 <= length (pool w))%nat
        by (destruct (pool w); [discriminate | simpl; lia]).
      constructor; cbn [pc rains keys]; try assumption.
      * rewrite held_app. cbn. now rewrite app_nil_r.
      * rewrite news_app, Hswept. cbn. lia.
      * reflexivity.
      * rewrite length_app. cbn [length]. lia.
      * apply Forall_app. split; [exact Hgens|]. repeat constructor.
    + constructor; cbn [pc rains keys]; try assumption. reflexivity.
  - (* next(r) for the generator at index i, or the end of the sweep *)
    destruct (nth_error rs i) as [r|] eqn:En.
    + apply nth_error_split in En. destruct En as (l1 & l2 & -> & <-).
      assert (Hsp : t = true ->
                0 < LINES /\ (1 <= fuel)%nat /\ 1 <= opt_speed (options w)).
      { intros Ht. destruct (Hpre Ht). repeat split; try assumption.
        rewrite (proj2 (inv_opts _ _ HI)). now apply speed_bound_pos. }
      destruct r as [|x a].
      * cbn [rain_next]. wp_step rain_loop_spec as r' w1 H.
        { intros Ht. destruct (Hsp Ht) as (? & ? & ?).
          repeat split; try assumption.
          pose proof (inv_free _ _ HI) as Hf. cbn [rains] in Hf.
          rewrite news_app, news_cons in Hf. cbn [is_new] in Hf.
          destruct (pool w); [simpl in Hf; lia | discriminate]. }
        destruct H as (x & a & -> & Hok & _ & _ & Hpm & Ho & Hcs).
        apply wp_ret. rewrite set_nth_app.
        eapply inv_resume; eauto. cbn [holds]. now rewrite app_nil_r.
      * assert (Hok : anim_ok x a).
        { pose proof (inv_gens _ _ HI) as Hg. cbn [rains] in Hg.
          apply Forall_app in Hg. destruct Hg as [_ Hg].
          apply Forall_cons_iff in Hg. apply Hg. }
        wp_step (rain_next_spec t fuel x a) as r' w1 H.
        apply wp_ret. rewrite set_nth_app.
        destruct (a_tail a <? LINES).
        -- destruct H as (-> & Hp & Ho & Hcs).
           eapply inv_resume; eauto.
           ++ now apply anim_ok_advance.
           ++ rewrite Hp. cbn [holds].
              change (x :: pool w) with ([x] ++ pool w).
              apply Permutation_app_comm.
        -- destruct H as (x' & a' & -> & Hok' & _ & _ & Hpm & Ho & Hcs).
           eapply inv_resume; eauto.
    + apply wp_ret.
      destruct HI as [Hpart Hfree Hswept Hcount Hopts Hhead Hgens Hscr].
      cbn [pc rains keys] in *.
      constructor; cbn [pc rains keys]; try assumption.
      apply nth_error_None in En. now rewrite firstn_all2 in Hswept.
  - (* getch and the key *)
    destruct (getch ks) as [ch ks'].
    wp_step handle_key_spec as stop w1 H.
    destruct H as (Hp & Hs & Hsp & Hc & Hh).
    apply wp_ret.
    destruct HI as [Hpart Hfree Hswept Hcount [Hoc Hos] Hhead Hgens Hscr].
    cbn [pc rains keys] in *.
    constructor; cbn [pc rains keys]; try congruence.
    + now destruct stop.
    + split; congruence.
    + destruct Hh as [Hh|Hh]; [rewrite Hh; exact Hhead | exact Hh].
  - apply wp_ret. exact HI.
Qed.

Lemma main_run_inv t fuel n : forall l w,
  (t = true -> 0 < LINES /\ (1 <= fuel)%nat) ->
  Inv l w -> wp t (main_run fuel n l) w Inv.
Proof.
  induction n as [|n IH]; intros l w Hpre HI; cbn [main_run].
  - apply wp_ret. exact HI.
  - wp_step main_step_inv as l1 w1 H1. apply IH; assumption.
Qed.

Lemma main_inv t fuel n ks seed :
  (t = true -> 0 < LINES /\ (1 <= fuel)%nat) ->
  wp t (main fuel n ks) (boot seed) Inv.
Proof.
  intros Hpre. unfold main.
  apply wp_bind. unfold config.
  apply wp_bind, wp_gets. apply wp_bind. unfold wp at 1, set_options.
  apply wp_bind, wp_gets. unfold wp at 1.
  apply wp_bind. unfold wp at 1, set_pool.
  apply main_run_inv; [exact Hpre|].
  constructor; cbn.
  - now rewrite app_nil_r.
  - lia.
  - reflexivity.
  - lia.
  - split; reflexivity.
  - now left.
  - constructor.
  - constructor.
Qed.

End MainLoop.

(** * One stream, resumed again and again *)

Section Stream.
Context {env : Env}.

Lemma animate_iter_spec t n : forall a w,
  0 <= a_head a -> 0 <= a_speed a ->
  wp t (animate_iter n a) w (fun r w' =>
    r = advances n a /\ painted (a_x a) w w').
Proof.
  induction n as [|n IH]; intros a w Hh Hs; cbn [animate_iter advances].
  - apply wp_ret. split; [reflexivity | apply painted_refl].
  - wp_step animate_next_spec as r w1 H.
    destruct (a_tail a <? LINES).
    + destruct H as (-> & Hp).
      eapply wp_mono; [apply IH; simpl; lia|].
      cbv beta. intros r w2 [Hr Hp2]. split; [exact Hr|].
      eapply painted_trans; eauto.
    + destruct H as (-> & ->). apply wp_ret.
      split; [reflexivity | apply painted_refl].
Qed.

Lemma animate_iter_ok n a w r w' :
  0 <= a_head a -> 0 <= a_speed a ->
  animate_iter n a w = Ok r w' -> r = advances n a.
Proof.
  intros Hh Hs E.
  exact (proj1 (wp_ok false _ _ _ _ _ (animate_iter_spec false n a w Hh Hs) E)).
Qed.

Lemma animate_next_ok a w r w' :
  0 <= a_head a ->
  animate_next a w = Ok r w' ->
  r = if a_tail a <? LINES then Some (advance a) else None.
Proof.
  intros Hh E.
  pose proof (wp_ok false _ _ _ _ _ (animate_next_spec false a w Hh) E) as H.
  cbv beta in H. destruct (a_tail a <? LINES); apply H.
Qed.

Lemma streaming_first x len speed :
  streaming len speed (animate_rain x len speed).
Proof. unfold streaming, animate_rain. simpl. lia. Qed.

Lemma streaming_advance len speed a : 0 <= speed ->
  streaming len speed a -> streaming len speed (advance a).
Proof.
  intros Hs (Hl & Hsp & Hh & Ht). unfold streaming, advance. simpl. lia.
Qed.

Lemma streaming_advances len speed n : forall a a', 0 <= speed ->
  streaming len speed a -> advances n a = Some a' -> streaming len speed a'.
Proof.
  induction n as [|n IH]; intros a a' Hs Ha; cbn [advances].
  - now intros [= <-].
  - destruct (a_tail a <? LINES); [|discriminate].
    apply IH; [exact Hs|]. now apply streaming_advance.
Qed.

Lemma advances_finish m : forall a,
  1 <= a_speed a -> 0 <= a_tail a < LINES ->
  Z.of_nat m = rounds_left (a_max_length a) (a_speed a) (a_head a) ->
  exists a', advances (S m) a = Some a' /\ LINES <= a_tail a' /\
             a_head a' = a_head a + Z.of_nat (S m) * a_speed a.
Proof.
  induction m as [|m IH]; intros a Hs Ht Hm; unfold rounds_left in Hm.
  - cbn [advances]. destruct (Z.ltb_spec (a_tail a) LINES); [|lia].
    exists (advance a). split; [reflexivity|].
    cbn [advance a_tail a_head]. split; [|lia].
    assert ((LINES + a_max_length a - a_head a + a_speed a - 1) / a_speed a
            <= 0) as Hq by lia.
    assert (LINES + a_max_length a - a_head a + a_speed a - 1 < a_speed a).
    { destruct (Z.lt_ge_cases
                  (LINES + a_max_length a - a_head a + a_speed a - 1)
                  (a_speed a)) as [|Hge]; [assumption|].
      pose proof (Z.div_le_mono _ _ (a_speed a) ltac:(lia) Hge) as Hd.
      rewrite Z.div_same in Hd by lia. lia. }
    lia.
  - change (advances (S (S m)) a)
      with (if a_tail a <? LINES then advances (S m) (advance a) else None).
    destruct (Z.ltb_spec (a_tail a) LINES); [|lia].
    set (y := LINES + a_max_length a - a_head a) in *.
    assert (Hy : 0 < y).
    { destruct (Z.lt_ge_cases 0 y) as [|Hle]; [assumption|].
      assert ((y + a_speed a - 1) / a_speed a <= 0).
      { apply Z.lt_succ_r. apply Z.div_lt_upper_bound; lia. }
      lia. }
    assert (Hq : (y - a_speed a + a_speed a - 1) / a_speed a
                 = (y + a_speed a - 1) / a_speed a - 1).
    { replace (y - a_speed a + a_speed a - 1)
        with (y + a_speed a - 1 + (-1) * a_speed a) by lia.
      rewrite Z.div_add by lia. lia. }
    destruct (IH (advance a)) as (a' & Ha' & Hfin & Hhd).
    + exact Hs.
    + cbn [advance a_tail]. subst y. lia.
    + unfold rounds_left. cbn [advance a_max_length a_speed a_head].
      replace (LINES + a_max_length a - (a_head a + a_speed a)
               + a_speed a - 1)
        with (y - a_speed a + a_speed a - 1) by (subst y; lia).
      rewrite Hq. lia.
    + exists a'. split; [exact Ha'|]. split; [exact Hfin|].
      rewrite Hhd. cbn [advance a_head a_speed]. lia.
Qed.

End Stream.

(** * Runs of the main loop *)

Section Runs.
Context {env : Env}.

Lemma nth_error_set_nth {A} (r' : A) l : forall i r,
  nth_error l i = Some r -> nth_error (set_nth i r' l) i = Some r'.
Proof.
  induction l as [|y l IH]; intros [|i] r; simpl; try discriminate.
  - reflexivity.
  - apply IH.
Qed.

(** Whatever the main loop has reached satisfies the invariant. *)
Lemma main_reach_inv fuel n ks seed l w :
  main fuel n ks (boot seed) = Ok l w -> Inv l w.
Proof.
  intros E. eapply wp_ok; [|exact E].
  apply (main_inv false). discriminate.
Qed.

(** On a terminal with at least one line the main loop can be followed
    for any number of steps. *)
Lemma main_total fuel n ks seed :
  0 < LINES -> (1 <= fuel)%nat ->
  exists l w, main fuel n ks (boot seed) = Ok l w /\ Inv l w.
Proof.
  intros HL Hf. apply wp_total_ok. apply (main_inv true). auto.
Qed.

(** The list of generators changes length only when add_rain appends. *)
Lemma main_step_rains fuel l w :
  wp false (main_step fuel l) w (fun l' _ =>
    length (rains l') = length (rains l) \/
    (pc l = AtAddRain /\ rains l' = rains l ++ [RainNew] /\
     Z.of_nat (length (rains l)) < opt_count (options w) /\ pool w <> [])).
Proof.
  destruct l as [p rs ks]. unfold main_step. cbn [pc rains keys].
  destruct p as [|i| |].
  - wp_step add_rain_spec as rs' w1 H. destruct H as (Hw & Hrs).
    subst w1 rs'. apply wp_ret. cbn [rains].
    destruct (_ && _) eqn:E; [right | now left].
    apply andb_true_iff in E. destruct E as [E1 E2].
    apply Z.ltb_lt in E1.
    repeat split; try assumption. intros Hp. rewrite Hp in E2. discriminate.
  - destruct (nth_error rs i) as [r|].
    + eapply wp_seq; [apply wp_trivial|]. cbv beta. intros r' w1 _.
      apply wp_ret. left. cbn [rains]. apply set_nth_length.
    + apply wp_ret. now left.
  - destruct (getch ks) as [ch ks'].
    eapply wp_seq; [apply wp_trivial|]. cbv beta. intros stop w1 _.
    apply wp_ret. now left.
  - apply wp_ret. now left.
Qed.

(** One step of the sweep on a generator that is inside an animation. *)
Lemma main_step_next t fuel l w i x a :
  pc l = AtNext i -> nth_error (rains l) i = Some (RainIn x a) ->
  anim_ok x a ->
  (t = true -> 0 < LINES /\ (1 <= fuel)%nat /\ 1 <= opt_speed (options w)) ->
  wp t (main_step fuel l) w (fun l' w' =>
    if a_tail a <? LINES
    then nth_error (rains l') i = Some (RainIn x (advance a)) /\
         pool w' = pool w
    else exists x' a',
         nth_error (rains l') i = Some (RainIn x' a') /\
         a_head a' = a_speed a' /\ a_tail a' = 0 /\
         In x' (pool w ++ [x]) /\
         Permutation (pool w ++ [x]) (x' :: pool w')).
Proof.
  intros Hpc Hnth Hok Hpre. unfold main_step. rewrite Hpc, Hnth.
  wp_step (rain_next_spec t fuel x a) as r' w1 H.
  apply wp_ret. cbn [rains].
  destruct (a_tail a <? LINES).
  - destruct H as (-> & Hp & _). split; [|exact Hp].
    eapply nth_error_set_nth; eauto.
  - destruct H as (x' & a' & -> & Hok' & Hhd & Hin & Hpm & _).
    exists x', a'. split; [eapply nth_error_set_nth; eauto|].
    split; [exact Hhd|]. split; [|split; assumption].
    destruct Hok' as (_ & _ & Hl & _ & _ & Ht). rewrite Ht, Hhd. lia.
Qed.

Lemma wp_bind_ok {A B} (m : M A) (k : A -> M B) w
      (Q : B -> world -> Prop) :
  (forall a w1, m w = Ok a w1 -> wp false (k a) w1 Q) ->
  wp false (bind m k) w Q.
Proof.
  intros H. unfold wp, bind. destruct (m w) as [a w1| |] eqn:E; auto.
  exact (H a w1 eq_refl).
Qed.

Lemma pool_remove_ok x w u w' :
  pool_remove x w = Ok u w' ->
  list_remove x (pool w) = Some (pool w') /\ options w' = options w.
Proof.
  unfold pool_remove, bind, gets.
  destruct (list_remove x (pool w)) as [p'|]; [|discriminate].
  unfold set_pool. intros [= _ <-]. split; reflexivity.
Qed.

(** The column a returning [rain] holds is the one [random.choice] drew
    from the pool as it stood, and the pool has lost that one entry. *)
Lemma rain_loop_choice fuel w :
  wp false (rain_loop fuel) w (fun g w' =>
    exists x w1 a,
      random_choice (pool w) w = Ok x w1 /\
      list_remove x (pool w) = Some (pool w') /\ g = RainIn x a).
Proof.
  destruct (Z.le_gt_cases LINES 0) as [HL|HL].
  { eapply wp_mono; [apply rain_loop_no_lines; exact HL|].
    cbv beta. intros g w' []. }
  destruct fuel as [|fuel]; [exact I|].
  cbn [rain_loop]. apply wp_bind, wp_gets.
  apply wp_bind_ok. intros x w1 Ec.
  pose proof (wp_ok false _ _ _ _ _
                (random_choice_spec false (pool w) w ltac:(discriminate)) Ec)
    as (_ & Hp1 & _).
  apply wp_bind_ok. intros u w2 Er.
  apply pool_remove_ok in Er. destruct Er as [Hrem _]. rewrite Hp1 in Hrem.
  wp_step randint_spec as len w3 H. { discriminate. }
  destruct H as (_ & Hp3 & _).
  apply wp_bind, wp_gets.
  wp_step randint_spec as speed w4 H. { discriminate. }
  destruct H as (_ & Hp4 & _).
  wp_step animate_next_spec as r w5 H. { cbn. lia. }
  cbn [animate_rain a_tail a_x] in H.
  destruct (Z.ltb_spec 0 LINES); [|lia].
  destruct H as (-> & Hp5 & _). apply wp_ret.
  exists x, w1, (advance (animate_rain x len speed)).
  split; [exact Ec|]. split; [|reflexivity].
  rewrite Hrem. f_equal. congruence.
Qed.

(** The same for a generator whose animation has ended: the draw is from
    the pool with its own column appended at the end. *)
Lemma main_step_next_choice fuel l w i x a :
  pc l = AtNext i -> nth_error (rains l) i = Some (RainIn x a) ->
  LINES <= a_tail a ->
  wp false (main_step fuel l) w (fun l' w' =>
    exists x' w1 a',
      random_choice (pool w ++ [x])
        {| pool := pool w ++ [x]; options := options w;
           rng := rng w; screen := screen w |} = Ok x' w1 /\
      list_remove x' (pool w ++ [x]) = Some (pool w') /\
      nth_error (rains l') i = Some (RainIn x' a')).
Proof.
  intros Hpc Hnth Ht. unfold main_step. rewrite Hpc, Hnth.
  apply wp_bind. cbn [rain_next].
  apply wp_bind_ok. intros r w1 Ea.
  unfold animate_next in Ea.
  destruct (Z.ltb_spec (a_tail a) LINES); [lia|].
  injection Ea as <- <-.
  apply wp_bind_ok. intros u w2 Ep.
  unfold pool_append, bind, gets, set_pool in Ep. injection Ep as _ <-.
  eapply wp_mono; [apply rain_loop_choice|]. cbv beta.
  intros g w' (x' & w1 & a' & Ec & Hrem & ->).
  apply wp_ret. exists x', w1, a'. cbn [pool rains] in *.
  split; [exact Ec|]. split; [exact Hrem|].
  eapply nth_error_set_nth; eauto.
Qed.

Lemma advances_same_lines (e1 e2 : Env) n : forall a,
  @LINES e1 = @LINES e2 -> @advances e1 n a = @advances e2 n a.
Proof.
  induction n as [|n IH]; intros a HL; cbn [advances]; [reflexivity|].
  rewrite HL. destruct (a_tail a <? LINES); [|reflexivity].
  now apply IH.
Qed.

End Runs.

(** * The properties of the specification *)

Section Properties.
Context {env : Env}.

(** C1, as the code has it: the pool starts as the list 0 .. COLS-2, and
    at every step of the main loop (before and after add_rain, each
    [next(r)] of the sweep and the key handling) every column of
    0 .. COLS-2 occurs exactly once in the pool and the columns held by the
    generators together, and no other column occurs there at all. The
    last column, COLS-1, is never free and never held. *)
Theorem columns_partition fuel n ks seed l w :
  main fuel n ks (boot seed) = Ok l w ->
  (exists w0,
     main fuel 0 ks (boot seed)
     = Ok {| pc := AtAddRain; rains := []; keys := ks |} w0 /\
     pool w0 = range 0 (COLS - 1)) /\
  forall c,
    count_occ Z.eq_dec (pool w ++ held (rains l)) c
    = if (0 <=? c) && (c <? COLS - 1) then 1%nat else 0%nat.
Proof.
  intros E. split.
  - eexists. split; reflexivity.
  - intros c. apply main_reach_inv in E.
    rewrite (proj1 (Permutation_count_occ Z.eq_dec _ _) (inv_part _ _ E) c).
    apply count_occ_range.
Qed.

(** C6: add_rain appends a generator exactly when the list is shorter
    than [options['count']] and the pool is not empty, and leaves the list
    alone otherwise, in particular on an empty pool; at every step of the
    main loop the list is no longer than [options['count']], and a step
    that changes its length is an add_rain that found both conditions
    true. *)
Theorem add_rain_bounded fuel n ks seed l w :
  0 <= COLS ->
  main fuel n ks (boot seed) = Ok l w ->
  (forall rs w0,
     (Z.of_nat (length rs) < opt_count (options w0) /\ pool w0 <> [] ->
      add_rain rs w0 = Ok (rs ++ [RainNew]) w0) /\
     (~ (Z.of_nat (length rs) < opt_count (options w0) /\ pool w0 <> []) ->
      add_rain rs w0 = Ok rs w0) /\
     (pool w0 = [] -> add_rain rs w0 = Ok rs w0)) /\
  Z.of_nat (length (rains l)) <= opt_count (options w) /\
  (forall l' w', main_step fuel l w = Ok l' w' ->
     length (rains l') <> length (rains l) ->
     pc l = AtAddRain /\ rains l' = rains l ++ [RainNew] /\
     Z.of_nat (length (rains l)) < opt_count (options w) /\ pool w <> []).
Proof.
  intros HC E. apply main_reach_inv in E. split; [|split].
  - intros rs w0.
    pose proof (wp_total_ok _ _ _ (add_rain_spec true rs w0))
      as (rs' & w1 & Ea & -> & ->).
    rewrite Ea. clear Ea.
    assert (Hif : forall b : bool,
      (if (Z.of_nat (length rs) <? opt_count (options w0)) && b
       then rs ++ [RainNew] else rs)
      = if Z.of_nat (length rs) <? opt_count (options w0)
        then (if b then rs ++ [RainNew] else rs) else rs)
      by (intros b; now destruct (_ <? _)).
    rewrite Hif.
    destruct (Z.ltb_spec (Z.of_nat (length rs)) (opt_count (options w0)));
      destruct (pool w0) as [|c p]; cbn [negb];
      repeat split; intros; try reflexivity; try tauto; try discriminate;
      try lia.
    + exfalso. intuition congruence.
  - pose proof (inv_count _ _ E) as Hc.
    rewrite (proj1 (inv_opts _ _ E)) in *.
    pose proof (Z.div_pos COLS 2). lia.
  - intros l' w' Es Hne.
    pose proof (wp_ok false _ _ _ _ _ (main_step_rains fuel l w) Es) as H.
    cbv beta in H. destruct H as [H|H]; [congruence | exact H].
Qed.

(** C7: every cell the main loop has written, at any step, lies on the
    terminal: its row is in [0, LINES) and its column in [0, COLS); and one
    resume of a stream whose head is not negative only writes cells of its
    own column on rows of the terminal, whatever the size of the screen. *)
Theorem writes_in_bounds fuel n ks seed l w :
  main fuel n ks (boot seed) = Ok l w ->
  Forall in_bounds (screen w) /\
  (forall a w0, 0 <= a_head a ->
     exists r w1 cs, animate_next a w0 = Ok r w1 /\
       screen w1 = screen w0 ++ cs /\
       Forall (fun c => c_col c = a_x a /\ 0 <= c_row c < LINES) cs).
Proof.
  intros E. split.
  - exact (inv_screen _ _ (main_reach_inv _ _ _ _ _ _ E)).
  - intros a w0 Hh.
    destruct (wp_total_ok _ _ _ (animate_next_spec true a w0 Hh))
      as (r & w1 & Ea & H).
    exists r, w1. destruct (a_tail a <? LINES).
    + destruct H as (_ & _ & _ & cs & Hs & Hcs). exists cs. auto.
    + destruct H as (_ & ->). exists []. rewrite app_nil_r. auto.
Qed.

(** C9: at every step of the main loop [options['head']] is HEAD_STANDOUT
    or HEAD_BOLD; update_style turns the one into the other, and two calls
    in a row give back the store they started from. *)
Theorem update_style_involution fuel n ks seed l w :
  main fuel n ks (boot seed) = Ok l w ->
  (opt_head (options w) = HEAD_STANDOUT \/
   opt_head (options w) = HEAD_BOLD) /\
  (exists w1, update_style w = Ok tt w1 /\
     (opt_head (options w) = HEAD_STANDOUT ->
      opt_head (options w1) = HEAD_BOLD) /\
     (opt_head (options w) = HEAD_BOLD ->
      opt_head (options w1) = HEAD_STANDOUT)) /\
  (update_style ;; update_style) w = Ok tt w.
Proof.
  intros E. pose proof (inv_head _ _ (main_reach_inv _ _ _ _ _ _ E)) as Hh.
  split; [exact Hh|]. split.
  - destruct (wp_total_ok _ _ _ (update_style_spec true w))
      as ([] & w1 & E1 & _ & _ & _ & _ & _ & Hhd).
    exists w1. split; [exact E1|]. rewrite Hhd.
    split; intros H; rewrite H.
    + now rewrite Z.eqb_refl.
    + destruct (Z.eqb_spec HEAD_BOLD HEAD_STANDOUT); congruence.
  - destruct w as [p [h s c] r sc].
    cbn [options opt_head] in Hh.
    unfold bind, update_style, bind, gets, set_options.
    cbn [pool options rng screen opt_head opt_speed opt_count].
    do 3 f_equal.
    destruct Hh as [-> | ->].
    + rewrite Z.eqb_refl.
      destruct (Z.eqb_spec HEAD_BOLD HEAD_STANDOUT); congruence.
    + destruct (Z.eqb_spec HEAD_BOLD HEAD_STANDOUT) as [Heq|Hne].
      * rewrite Heq. rewrite Z.eqb_refl. reflexivity.
      * rewrite Z.eqb_refl. reflexivity.
Qed.

(** C8: the key handling of one loop iteration polls getch once. With no
    key pending, or with the space key, the loop goes on and the store is
    untouched; with the key h the loop goes on in the store update_style
    leaves, in which [options['head']] is flipped (HEAD_STANDOUT becomes
    HEAD_BOLD and HEAD_BOLD becomes HEAD_STANDOUT) and nothing else has
    changed; any other key stops the loop, without an exception, and the
    stopped loop stays as it is. *)
Theorem key_handling fuel l w :
  pc l = AtGetch -> ERR <> ord_h ->
  let ch := fst (getch (keys l)) in
  let next p := {| pc := p; rains := rains l; keys := snd (getch (keys l)) |} in
  (keys l = [] -> ch = ERR) /\
  (ch = ERR -> main_step fuel l w = Ok (next AtAddRain) w) /\
  (ch = ord_space -> main_step fuel l w = Ok (next AtAddRain) w) /\
  (ch = ord_h ->
   exists w1, update_style w = Ok tt w1 /\
              main_step fuel l w = Ok (next AtAddRain) w1 /\
              pool w1 = pool w /\ screen w1 = screen w /\
              rng w1 = rng w /\
              opt_speed (options w1) = opt_speed (options w) /\
              opt_count (options w1) = opt_count (options w) /\
              opt_head (options w1)
              = (if opt_head (options w) =? HEAD_STANDOUT
                 then HEAD_BOLD else HEAD_STANDOUT) /\
              (opt_head (options w) = HEAD_STANDOUT ->
               opt_head (options w1) = HEAD_BOLD) /\
              (opt_head (options w) = HEAD_BOLD ->
               opt_head (options w1) = HEAD_STANDOUT)) /\
  (ch <> ERR -> ch <> ord_space -> ch <> ord_h ->
   main_step fuel l w = Ok (next Stopped) w /\
   main_step fuel (next Stopped) w = Ok (next Stopped) w).
Proof.
  intros Hpc Herr ch next. split; [|split; [|split; [|split]]].
  - intros Hk. subst ch. now rewrite Hk.
  - intros Hch. unfold main_step. rewrite Hpc.
    subst ch next. destruct (getch (keys l)) as [c ks]. cbn [fst snd] in *.
    subst c. unfold bind, handle_key. now rewrite Z.eqb_refl.
  - intros Hch. unfold main_step. rewrite Hpc.
    subst ch next. destruct (getch (keys l)) as [c ks]. cbn [fst snd] in *.
    subst c. unfold bind, handle_key. rewrite Z.eqb_refl.
    now rewrite andb_false_r.
  - intros Hch. eexists. split; [reflexivity|]. split.
    { unfold main_step. rewrite Hpc.
      subst ch next. destruct (getch (keys l)) as [c ks].
      cbn [fst snd] in *. subst c. unfold bind at 1, handle_key.
      destruct (Z.eqb_spec ord_h ERR) as [Heq|_]; [congruence|].
      reflexivity. }
    cbn [pool screen rng options opt_speed opt_count opt_head].
    repeat (split; [reflexivity|]). split; intros H; rewrite H.
    + now rewrite Z.eqb_refl.
    + destruct (Z.eqb_spec HEAD_BOLD HEAD_STANDOUT); congruence.
  - intros H1 H2 H3. split; [|reflexivity].
    unfold main_step. rewrite Hpc.
    subst ch next. destruct (getch (keys l)) as [c ks]. cbn [fst snd] in *.
    unfold bind, handle_key.
    destruct (Z.eqb_spec c ERR); [contradiction|].
    destruct (Z.eqb_spec c ord_space); [contradiction|].
    destruct (Z.eqb_spec c ord_h); [contradiction|].
    reflexivity.
Qed.


(** C5, as the code has it: take a stream of length [len >= 0] and speed
    [speed >= 1] after any number [n] of resumes, and resume it once more.
    The advance derives middle and tail from the head [h] it starts with,
    as [max(0, h - len/2)] and [max(0, h - len)], before it moves the head
    to [h + speed]; afterwards [0 <= tail <= middle <= h <= head], and the
    tail is not below the tail before the advance. *)
Theorem stream_positions_ordered x len speed n w a w1 a' w2 :
  0 <= len -> 1 <= speed ->
  animate_iter n (animate_rain x len speed) w = Ok (Some a) w1 ->
  animate_next a w1 = Ok (Some a') w2 ->
  a_middle a' = Z.max 0 (a_head a - len / 2) /\
  a_tail a' = Z.max 0 (a_head a - len) /\
  0 <= a_tail a' <= a_middle a' /\
  a_middle a' <= a_head a /\
  a_head a' = a_head a + speed /\
  a_middle a' <= a_head a' /\
  a_tail a <= a_tail a'.
Proof.
  intros Hl Hs En Ea.
  apply animate_iter_ok in En; [|simpl; lia..].
  assert (Hst : streaming len speed a).
  { eapply streaming_advances; [| apply streaming_first | symmetry; exact En].
    lia. }
  destruct Hst as (Hlen & Hsp & Hh & Ht).
  apply animate_next_ok in Ea; [|exact Hh].
  destruct (a_tail a <? LINES); [|discriminate].
  injection Ea as ->. cbn [advance a_middle a_tail a_head].
  rewrite Hlen, Hsp. pose proof (half_le len Hl). lia.
Qed.

(** C10: a stream of speed [speed >= 1] and length [len >= 0] yields a
    finite number [n] of times and then its generator ends: none on a
    screen without lines, and otherwise one more than
    [(LINES + len) / speed] rounded up, which is at most
    [(LINES + len) / speed + 2]. *)
Theorem animate_rain_terminates x len speed w :
  1 <= speed -> 0 <= len ->
  exists n a w',
    animate_iter n (animate_rain x len speed) w = Ok (Some a) w' /\
    animate_next a w' = Ok None w' /\
    Z.of_nat n = (if LINES <=? 0 then 0
                  else (LINES + len + speed - 1) / speed + 1) /\
    Z.of_nat n <= Z.max 0 ((LINES + len) / speed + 2).
Proof.
  intros Hs Hl. destruct (Z.leb_spec LINES 0) as [HL|HL].
  - exists 0%nat, (animate_rain x len speed), w.
    split; [reflexivity|]. split; [|lia].
    unfold animate_next. cbn [animate_rain a_tail].
    destruct (Z.ltb_spec 0 LINES); [lia | reflexivity].
  - set (a0 := animate_rain x len speed).
    set (q := (LINES + len + speed - 1) / speed).
    assert (Hq : 1 <= q).
    { subst q. replace (LINES + len + speed - 1)
        with (LINES + len - 1 + 1 * speed) by lia.
      rewrite Z.div_add by lia.
      pose proof (Z.div_pos (LINES + len - 1) speed). lia. }
    assert (Hq2 : q <= (LINES + len) / speed + 1).
    { subst q. replace ((LINES + len) / speed + 1)
        with ((LINES + len + 1 * speed) / speed)
        by (rewrite Z.div_add by lia; reflexivity).
      apply Z.div_le_mono; lia. }
    destruct (advances_finish (Z.to_nat q) a0) as (a' & Ha' & Hfin & _).
    + exact Hs.
    + cbn. lia.
    + unfold rounds_left. cbn [a0 animate_rain a_max_length a_speed a_head].
      replace (LINES + len - 0 + speed - 1) with (LINES + len + speed - 1)
        by lia.
      fold q. lia.
    + destruct (wp_total_ok _ _ _
                  (animate_iter_spec true (S (Z.to_nat q)) a0 w
                     ltac:(cbn; lia) ltac:(cbn; lia)))
        as (r & w' & Er & -> & _).
      exists (S (Z.to_nat q)), a', w'. rewrite Ha' in Er.
      split; [exact Er|]. split; [|lia].
      unfold animate_next.
      destruct (Z.ltb_spec (a_tail a') LINES); [lia | reflexivity].
Qed.

(** C2, as the code has it. The list of generators never gets shorter:
    main removes nothing from it. When the sweep resumes a generator that
    is inside an animation, the tail it last computed is
    [max(0, h - length)] for the head [h] that iteration started with, and
    the animation has ended exactly when that tail is not below LINES, on a
    screen with lines exactly when [h - length >= LINES]. A stream that has
    not ended advances once in its column and the pool is untouched. A
    stream that has ended is recycled inside the same [next]: the
    generator appends its column at the end of the pool, once;
    [random.choice] then draws a column from that longer pool (its own
    old column included) and [pool.remove] takes that one entry out; the
    generator runs the first iteration of a new animation in the column
    drawn and stays in the list at its index. *)
Theorem finished_stream_recycles fuel n ks seed l w l' w' :
  main fuel n ks (boot seed) = Ok l w ->
  main_step fuel l w = Ok l' w' ->
  (length (rains l) <= length (rains l'))%nat /\
  forall i x a,
    pc l = AtNext i -> nth_error (rains l) i = Some (RainIn x a) ->
    a_tail a = Z.max 0 (a_head a - a_speed a - a_max_length a) /\
    (0 < LINES ->
     ((a_tail a <? LINES) = false
      <-> a_head a - a_speed a - a_max_length a >= LINES)) /\
    length (rains l') = length (rains l) /\
    if a_tail a <? LINES
    then nth_error (rains l') i = Some (RainIn x (advance a)) /\
         pool w' = pool w
    else exists x' a',
         nth_error (rains l') i = Some (RainIn x' a') /\
         a_head a' = a_speed a' /\ a_tail a' = 0 /\
         In x' (pool w ++ [x]) /\
         Permutation (pool w ++ [x]) (x' :: pool w') /\
         (exists w1,
            random_choice (pool w ++ [x])
              {| pool := pool w ++ [x]; options := options w;
                 rng := rng w; screen := screen w |} = Ok x' w1) /\
         list_remove x' (pool w ++ [x]) = Some (pool w').
Proof.
  intros E Es. apply main_reach_inv in E.
  pose proof (wp_ok false _ _ _ _ _ (main_step_rains fuel l w) Es) as Hr.
  cbv beta in Hr. split.
  - destruct Hr as [Hr | (_ & Hr & _)]; rewrite Hr; [lia|].
    rewrite length_app. cbn. lia.
  - intros i x a Hpc Hnth.
    assert (Hok : anim_ok x a).
    { pose proof (inv_gens _ _ E) as Hg.
      rewrite Forall_forall in Hg. apply nth_error_In in Hnth.
      exact (Hg _ Hnth). }
    pose proof Hok as (_ & _ & _ & _ & _ & Ht).
    split; [exact Ht|]. split; [|split].
    + intros HL. rewrite Z.ltb_ge, Ht. lia.
    + destruct Hr as [Hr | (Hr & _)]; [exact Hr | congruence].
    + pose proof (wp_ok false _ _ _ _ _
                    (main_step_next false fuel l w i x a Hpc Hnth Hok
                       ltac:(discriminate)) Es) as Hn.
      cbv beta in Hn.
      destruct (Z.ltb_spec (a_tail a) LINES) as [Hrun|Hend]; [exact Hn|].
      destruct Hn as (x' & a' & Hnth' & Hh & Htl & Hin & Hpm).
      pose proof (wp_ok false _ _ _ _ _
                    (main_step_next_choice fuel l w i x a Hpc Hnth Hend) Es)
        as (x2 & w1 & a2 & Ec & Hrem & Hnth2).
      rewrite Hnth' in Hnth2. injection Hnth2 as <- <-.
      exists x', a'. repeat (split; [assumption|]).
      split; [exists w1; exact Ec | exact Hrem].
Qed.


End Properties.

(** * The properties on the two terminals *)

Section On20x10.
#[local] Existing Instance term_20x10.

(** C1 as the specification states it fails on the 10-column terminal:
    column 9 is a column of the terminal, yet when the loop starts it is
    neither in the pool nor held by a generator. *)
Lemma last_column_is_nowhere :
  ~ (forall n l w,
       main 1 n [] (boot 0) = Ok l w ->
       forall c, 0 <= c < COLS ->
         count_occ Z.eq_dec (pool w ++ held (rains l)) c = 1%nat).
Proof.
  intros H.
  specialize (H 0%nat _ _ eq_refl 9 ltac:(cbn; lia)).
  vm_compute in H. discriminate H.
Qed.

Lemma columns_partition_witness :
  exists l w,
    main 1 6 [] (boot 0) = Ok l w /\
    pool w = [0; 1; 2; 4; 5; 6; 7; 8] /\ held (rains l) = [3] /\
    forall c,
      count_occ Z.eq_dec (pool w ++ held (rains l)) c
      = if (0 <=? c) && (c <? COLS - 1) then 1%nat else 0%nat.
Proof.
  eexists _, _. split; [vm_compute; reflexivity|].
  split; [reflexivity|]. split; [reflexivity|].
  apply (columns_partition 1 6 [] 0).
  vm_compute; reflexivity.
Defined.




(** C5 as the specification states it fails on the 20-line terminal:
    after 10 resumes of a stream of length 10 and speed 2 the head is 20,
    the middle 13 and the tail 8, not [max(0, 20 - 5)] and
    [max(0, 20 - 10)]. *)
Lemma derived_positions_lag_head :
  ~ (forall a w',
       animate_iter 10 (animate_rain 3 10 2) (boot 0) = Ok (Some a) w' ->
       a_middle a = Z.max 0 (a_head a - 10 / 2) /\
       a_tail a = Z.max 0 (a_head a - 10)).
Proof.
  intros H.
  destruct (H _ _ ltac:(vm_compute; reflexivity)) as [Hm _].
  vm_compute in Hm. discriminate Hm.
Qed.

Lemma stream_positions_ordered_witness :
  0 <= 10 /\ 1 <= 2 /\
  exists a w1 a' w2,
    animate_iter 10 (animate_rain 3 10 2) (boot 0)
    = Ok (Some a) w1 /\
    animate_next a w1 = Ok (Some a') w2 /\
    a_head a = 20 /\ a_middle a' = 15 /\ a_tail a' = 10 /\
    0 <= a_tail a' <= a_middle a' /\ a_middle a' <= a_head a /\
    a_tail a <= a_tail a'.
Proof.
  split; [lia|]. split; [lia|].
  eexists _, _, _, _. split; [vm_compute; reflexivity|].
  split; [vm_compute; reflexivity|].
  split; [reflexivity|]. split; [reflexivity|]. split; [reflexivity|].
  pose proof (stream_positions_ordered (env := term_20x10)
                3 10 2 10 (boot 0) _ _ _ _
                ltac:(lia) ltac:(lia)
                ltac:(vm_compute; reflexivity)
                ltac:(vm_compute; reflexivity))
    as (_ & _ & H1 & H2 & _ & _ & H3).
  split; [exact H1|]. split; [exact H2 | exact H3].
Defined.

Lemma add_rain_bounded_witness :
  0 <= COLS /\
  exists l w,
    main 1 6 [] (boot 0) = Ok l w /\
    length (rains l) = 2%nat /\ opt_count (options w) = 5 /\
    Z.of_nat (length (rains l)) <= opt_count (options w).
Proof.
  split; [cbn; lia|].
  eexists _, _. split; [vm_compute; reflexivity|].
  split; [reflexivity|]. split; [reflexivity|].
  apply (add_rain_bounded 1 6 [] 0);
    [cbn; lia | vm_compute; reflexivity].
Defined.

Lemma writes_in_bounds_witness :
  exists l w,
    main 1 6 [] (boot 0) = Ok l w /\
    length (screen w) = 3%nat /\
    Forall (in_bounds (env := term_20x10)) (screen w).
Proof.
  eexists _, _. split; [vm_compute; reflexivity|].
  split; [reflexivity|].
  apply (proj1 (writes_in_bounds (env := term_20x10) 1 6 [] 0 _ _
                  ltac:(vm_compute; reflexivity))).
Defined.

Lemma key_handling_witness :
  let l := {| pc := AtGetch; rains := []; keys := [ord_h] |} in
  let bold := {| pool := []; rng := 0; screen := [];
                 options := {| opt_head := HEAD_BOLD; opt_speed := 2;
                               opt_count := 10 |} |} in
  pc l = AtGetch /\ ERR <> ord_h /\
  (exists w1,
     main_step 1 l (boot 0)
     = Ok {| pc := AtAddRain; rains := []; keys := [] |} w1 /\
     opt_head (options (boot 0)) = HEAD_STANDOUT /\
     opt_head (options w1) = HEAD_BOLD) /\
  (exists w1,
     main_step 1 l bold
     = Ok {| pc := AtAddRain; rains := []; keys := [] |} w1 /\
     opt_head (options w1) = HEAD_STANDOUT).
Proof.
  intros l bold. split; [reflexivity|]. split; [discriminate|]. split.
  - destruct (key_handling (env := term_20x10) 1 l (boot 0)
                eq_refl ltac:(discriminate))
      as (_ & _ & _ & Hh & _).
    destruct (Hh eq_refl) as (w1 & _ & E2 & _ & _ & _ & _ & _ & _ & H1 & _).
    exists w1. split; [exact E2|]. split; [reflexivity|].
    exact (H1 eq_refl).
  - destruct (key_handling (env := term_20x10) 1 l bold
                eq_refl ltac:(discriminate))
      as (_ & _ & _ & Hh & _).
    destruct (Hh eq_refl) as (w1 & _ & E2 & _ & _ & _ & _ & _ & _ & _ & H2).
    exists w1. split; [exact E2|]. exact (H2 eq_refl).
Defined.

Lemma update_style_involution_witness :
  exists l w,
    main 1 4 [ord_h] (boot 0) = Ok l w /\
    opt_head (options w) = HEAD_BOLD /\
    (update_style ;; update_style) w = Ok tt w.
Proof.
  eexists _, _. split; [vm_compute; reflexivity|].
  split; [reflexivity|].
  apply (proj2 (proj2 (update_style_involution (env := term_20x10)
                         1 4 [ord_h] 0 _ _
                         ltac:(vm_compute; reflexivity)))).
Defined.

Lemma animate_rain_terminates_witness :
  1 <= 2 /\ 0 <= 10 /\
  exists n a w',
    animate_iter n (animate_rain 3 10 2) (boot 0)
    = Ok (Some a) w' /\
    animate_next a w' = Ok None w' /\
    Z.of_nat n = 16.
Proof.
  split; [lia|]. split; [lia|].
  destruct (animate_rain_terminates (env := term_20x10) 3 10 2 (boot 0)
              ltac:(lia) ltac:(lia)) as (n & a & w' & E & En & Hn & _).
  exists n, a, w'. split; [exact E|]. split; [exact En|].
  rewrite Hn. reflexivity.
Defined.

End On20x10.

Section Recycling20x10.
#[local] Existing Instance term_20x10.

(** C2 as the specification states it fails on the 20 by 10 terminal:
    after 291 steps five streams are listed and the sweep is about to
    resume the one at index 4, in column 0, whose animation has ended.
    The step leaves the list five long, with the same generator at
    index 4, already one iteration into a new animation in column 8;
    column 0 is back in the pool, at its end, and column 8 has left it. *)
Lemma finished_stream_stays_listed :
  exists l w l' w' a a',
    main 1 291 [] (boot 0) = Ok l w /\
    pc l = AtNext 4 /\ length (rains l) = 5%nat /\
    nth_error (rains l) 4 = Some (RainIn 0 a) /\
    animate_next a w = Ok None w /\
    main_step 1 l w = Ok l' w' /\
    length (rains l') = 5%nat /\
    nth_error (rains l') 4 = Some (RainIn 8 a') /\
    a_head a' = a_speed a' /\
    pool w = [2; 5; 7; 8] /\ pool w' = [2; 5; 7; 0].
Proof.
  do 6 eexists. split; [vm_compute; reflexivity|].
  split; [reflexivity|]. split; [reflexivity|].
  split; [reflexivity|].
  split; [vm_compute; reflexivity|].
  split; [vm_compute; reflexivity|].
  repeat split.
Qed.

Lemma finished_stream_recycles_witness :
  exists l w l' w',
    main 1 291 [] (boot 0) = Ok l w /\
    main_step 1 l w = Ok l' w' /\
    (length (rains l) <= length (rains l'))%nat /\
    forall i x a,
      pc l = AtNext i -> nth_error (rains l) i = Some (RainIn x a) ->
      a_tail a = Z.max 0 (a_head a - a_speed a - a_max_length a) /\
      (0 < LINES ->
       ((a_tail a <? LINES) = false
        <-> a_head a - a_speed a - a_max_length a >= LINES)) /\
      length (rains l') = length (rains l) /\
      if a_tail a <? LINES
      then nth_error (rains l') i = Some (RainIn x (advance a)) /\
           pool w' = pool w
      else exists x' a',
           nth_error (rains l') i = Some (RainIn x' a') /\
           a_head a' = a_speed a' /\ a_tail a' = 0 /\
           In x' (pool w ++ [x]) /\
           Permutation (pool w ++ [x]) (x' :: pool w') /\
           (exists w1,
              random_choice (pool w ++ [x])
                {| pool := pool w ++ [x]; options := options w;
                   rng := rng w; screen := screen w |} = Ok x' w1) /\
           list_remove x' (pool w ++ [x]) = Some (pool w').
Proof.
  eexists _, _, _, _. split; [vm_compute; reflexivity|].
  split; [vm_compute; reflexivity|].
  apply (finished_stream_recycles (env := term_20x10) 1 291 [] 0);
    vm_compute; reflexivity.
Defined.

End Recycling20x10.


(** * More of the program *)

Lemma ok_total {A} t (m : M A) w a w' (Q : A -> world -> Prop) :
  m w = Ok a w' -> Q a w' -> wp t m w Q.
Proof. unfold wp. now intros ->. Qed.

(** ** Ranges and the screen *)

Lemma range_nil a b : b <= a -> range a b = [].
Proof.
  intros H. unfold range. replace (Z.to_nat (b - a)) with 0%nat by lia.
  reflexivity.
Qed.

Lemma range_cons a b : a < b -> range a b = a :: range (a + 1) b.
Proof.
  intros H. unfold range.
  replace (Z.to_nat (b - a)) with (S (Z.to_nat (b - (a + 1)))) by lia.
  cbn [seq map]. f_equal; [lia|].
  rewrite <- seq_shift, map_map. apply map_ext. intros k. lia.
Qed.

Lemma range_app a b c : a <= b <= c -> range a b ++ range b c = range a c.
Proof.
  intros H. remember (Z.to_nat (b - a)) as n eqn:En.
  revert a En H. induction n as [|n IH]; intros a En H.
  - assert (a = b) by lia. subst a. now rewrite range_nil by lia.
  - rewrite (range_cons a b), (range_cons a c) by lia.
    cbn [app]. f_equal. apply IH; lia.
Qed.

Lemma range_length a b : Z.of_nat (length (range a b)) = Z.max 0 (b - a).
Proof. unfold range. rewrite length_map, length_seq. lia. Qed.

Lemma cell_at_app r x cs cs' :
  cell_at r x (cs ++ cs')
  = match cell_at r x cs' with
    | Some c => Some c
    | None => cell_at r x cs
    end.
Proof.
  induction cs as [|c cs IH]; cbn [app cell_at].
  - now destruct (cell_at r x cs').
  - rewrite IH. now destruct (cell_at r x cs').
Qed.

(** Writes elsewhere do not change what a position shows. *)
Lemma cell_at_elsewhere r x cs :
  Forall (fun c => c_col c = x -> c_row c <> r) cs -> cell_at r x cs = None.
Proof.
  induction 1 as [|c cs Hc _ IH]; cbn [cell_at]; [reflexivity|].
  rewrite IH. destruct (Z.eqb_spec (c_row c) r) as [Hr|]; [|reflexivity].
  destruct (Z.eqb_spec (c_col c) x) as [Hx|]; [|reflexivity].
  now destruct (Hc Hx).
Qed.

(** A run of writes down the rows [l] of column [x], all alike. *)
Lemma cell_at_rows r x (mk : Z -> cell) l :
  (forall i, c_row (mk i) = i /\ c_col (mk i) = x) ->
  In r l -> cell_at r x (map mk l) = Some (mk r).
Proof.
  intros Hmk. induction l as [|i l IH]; [contradiction|].
  intros Hin. cbn [map cell_at].
  destruct (in_dec Z.eq_dec r l) as [Hl|Hl].
  - now rewrite (IH Hl).
  - destruct Hin as [->|Hin]; [|contradiction].
    rewrite cell_at_elsewhere.
    + destruct (Hmk r) as [-> ->]. now rewrite !Z.eqb_refl.
    + apply Forall_forall. intros c Hc. apply in_map_iff in Hc.
      destruct Hc as (j & <- & Hj). intros _.
      destruct (Hmk j) as [-> _]. intros ->. contradiction.
Qed.

(** ** Glyphs, painting and the palette *)

Section Painting.
Context {env : Env}.

(** The store after one more random draw. *)
Lemma random_choice_draws l w : l <> [] ->
  exists g,
    random_choice l w
    = Ok g {| pool := pool w; options := options w;
              rng := S (rng w); screen := screen w |} /\
    In g l.
Proof.
  destruct l as [|d l]; [congruence|]. intros _.
  eexists. split; [reflexivity|].
  apply nth_In.
  pose proof (Z.mod_pos_bound (tape (rng w)) (Z.of_nat (length (d :: l)))
                ltac:(cbn [length]; lia)).
  lia.
Qed.

Lemma MATRIX_CODE_CHARS_eq : MATRIX_CODE_CHARS = get_matrix_code_chars.
Proof. vm_compute. reflexivity. Qed.

Lemma in_MATRIX_CODE_CHARS g :
  In g MATRIX_CODE_CHARS <-> (0x21 <= g < 0x7E \/ 0xFF66 <= g < 0xFF9D).
Proof.
  rewrite MATRIX_CODE_CHARS_eq. unfold get_matrix_code_chars.
  rewrite in_app_iff, !in_range. reflexivity.
Qed.

(** X1: random_char never fails. It takes one random draw, touches
    nothing else, and returns one of the 148 distinct glyphs: a code point
    of 0x21..0x7D or of 0xFF66..0xFF9C, never the blank that show_tail
    writes. *)
Theorem random_char_glyph w :
  (exists g,
     random_char w
     = Ok g {| pool := pool w; options := options w;
               rng := S (rng w); screen := screen w |} /\
     (0x21 <= g < 0x7E \/ 0xFF66 <= g < 0xFF9D) /\ g <> ord_space) /\
  NoDup MATRIX_CODE_CHARS /\ length MATRIX_CODE_CHARS = 148%nat.
Proof.
  split; [|split].
  - destruct (random_choice_draws MATRIX_CODE_CHARS w
                MATRIX_CODE_CHARS_nonempty) as (g & E & Hin).
    exists g. split; [exact E|].
    apply in_MATRIX_CODE_CHARS in Hin.
    split; [exact Hin|]. unfold ord_space. lia.
  - rewrite MATRIX_CODE_CHARS_eq. unfold get_matrix_code_chars.
    apply NoDup_app; try apply NoDup_range.
    intros a H1 H2. apply in_range in H1. apply in_range in H2. lia.
  - reflexivity.
Qed.

(** A loop that paints one random glyph on each row of [l], in column
    [x], with the attribute [attr] gives the row. *)
Lemma for_glyphs t x (attr : Z -> Z) l : forall w,
  wp t (for_ l (fun i => ch <- random_char ;; addstr i x ch (attr i))) w
    (fun _ w' =>
       pool w' = pool w /\ options w' = options w /\
       exists cs, screen w' = screen w ++ cs /\ map c_row cs = l /\
         Forall (fun c => c_col c = x /\ c_attr c = attr (c_row c) /\
                          In (c_glyph c) MATRIX_CODE_CHARS) cs).
Proof.
  induction l as [|i l IH]; intros w; cbn [for_].
  - apply wp_ret. repeat split. exists []. rewrite app_nil_r. auto.
  - apply wp_bind. apply wp_bind.
    destruct (random_choice_draws MATRIX_CODE_CHARS w
                MATRIX_CODE_CHARS_nonempty) as (g & E & Hin).
    eapply ok_total; [exact E|]. unfold wp at 1, addstr.
    eapply wp_mono; [apply IH|]. cbv beta.
    intros _ w' (Hp & Ho & cs & Hs & Hrows & Hcs). cbn in Hp, Ho, Hs.
    split; [exact Hp|]. split; [exact Ho|].
    eexists (_ :: cs). split; [|split].
    + rewrite Hs, <- app_assoc. reflexivity.
    + cbn. now rewrite Hrows.
    + constructor; [cbn; auto | exact Hcs].
Qed.

Lemma for_blanks x l : forall w,
  for_ l (fun i => addstr i x ord_space (color_pair 0)) w
  = Ok tt {| pool := pool w; options := options w; rng := rng w;
             screen := screen w ++ map (blank_cell x) l |}.
Proof.
  induction l as [|i l IH]; intros w; cbn [for_ map].
  - rewrite app_nil_r. now destruct w.
  - unfold bind at 1, addstr at 1. rewrite IH. cbn. f_equal. f_equal.
    now rewrite <- app_assoc.
Qed.

(** X2: show_tail in a column of the pool, [0 <= x < COLS - 1], writes
    inside the window only, so that no write of it can be refused, and
    touches neither the pool, the options nor the random tape. It writes
    blanks with colour pair 0 in its column on exactly the rows from
    [max(0, tail - speed)] up to, not including, [min(tail, LINES)], top
    down: at most [speed] cells for a positive speed, and none when the
    tail is at row 0 or above the screen. *)
Theorem show_tail_blanks tail x speed w :
  0 <= x < COLS - 1 ->
  let rows := range (Z.max 0 (tail - speed)) (Z.min tail LINES) in
  show_tail tail x speed w
  = Ok tt {| pool := pool w; options := options w; rng := rng w;
             screen := screen w ++ map (blank_cell x) rows |} /\
  Forall in_bounds (map (blank_cell x) rows) /\
  (forall i, In i rows <-> Z.max 0 (tail - speed) <= i < Z.min tail LINES) /\
  (0 <= speed -> Z.of_nat (length rows) <= speed) /\
  (tail <= 0 -> rows = []).
Proof.
  intros Hx rows. split; [apply for_blanks|]. split; [|split; [|split]].
  - apply Forall_forall. intros c Hc. apply in_map_iff in Hc.
    destruct Hc as (i & <- & Hi). apply in_range in Hi.
    unfold in_bounds. cbn. lia.
  - intros i. apply in_range.
  - intros Hs. subst rows. rewrite range_length. lia.
  - intros Ht. apply range_nil. lia.
Qed.

(** The cells show_body records, whatever the column and the tail. *)
Lemma show_body_cells head middle tail x w :
  tail <= middle <= head ->
  exists w' cs,
    show_body head middle tail x w = Ok tt w' /\
    pool w' = pool w /\ options w' = options w /\
    screen w' = screen w ++ cs /\
    map c_row cs = range tail (Z.min head LINES) /\
    Forall (fun c =>
      c_col c = x /\ In (c_glyph c) MATRIX_CODE_CHARS /\
      c_attr c = if USE_GRADIENT then get_color (c_row c) head tail
                 else if c_row c <? middle then color_pair 1
                      else Z.lor (color_pair 1) A_BOLD) cs.
Proof.
  intros Hm.
  enough (wp true (show_body head middle tail x) w (fun _ w' =>
            exists cs,
              pool w' = pool w /\ options w' = options w /\
              screen w' = screen w ++ cs /\
              map c_row cs = range tail (Z.min head LINES) /\
              Forall (fun c =>
                c_col c = x /\ In (c_glyph c) MATRIX_CODE_CHARS /\
                c_attr c = if USE_GRADIENT then get_color (c_row c) head tail
                           else if c_row c <? middle then color_pair 1
                                else Z.lor (color_pair 1) A_BOLD) cs)) as H.
  { apply wp_total_ok in H. destruct H as ([] & w' & E & cs & H).
    exists w', cs. split; [exact E | exact H]. }
  unfold show_body. destruct USE_GRADIENT.
  - eapply wp_mono;
      [apply (for_glyphs true x (fun i => get_color i head tail))|].
    cbv beta. intros _ w' (Hp & Ho & cs & Hs & Hr & Hcs).
    exists cs. repeat (split; [assumption|]).
    revert Hcs. apply Forall_impl. tauto.
  - eapply wp_seq; [apply (for_glyphs true x (fun _ => color_pair 1))|].
    cbv beta. intros _ w1 (Hp1 & Ho1 & cs1 & Hs1 & Hr1 & Hcs1).
    eapply wp_mono;
      [apply (for_glyphs true x (fun _ => Z.lor (color_pair 1) A_BOLD))|].
    cbv beta. intros _ w2 (Hp2 & Ho2 & cs2 & Hs2 & Hr2 & Hcs2).
    exists (cs1 ++ cs2).
    split; [congruence|]. split; [congruence|].
    split; [rewrite Hs2, Hs1; now rewrite app_assoc|]. split.
    + rewrite map_app, Hr1, Hr2.
      destruct (Z.le_gt_cases LINES middle).
      * rewrite (range_nil middle) by lia. rewrite app_nil_r.
        f_equal. lia.
      * replace (Z.min middle LINES) with middle by lia.
        apply range_app. lia.
    + apply Forall_app. split.
      * assert (Hrow : Forall (fun c => c_row c < middle) cs1).
        { apply Forall_forall. intros c Hc.
          assert (In (c_row c) (map c_row cs1)) as Hin
            by (apply in_map; exact Hc).
          rewrite Hr1 in Hin. apply in_range in Hin. lia. }
        rewrite Forall_forall in *. intros c Hc.
        destruct (Hcs1 c Hc) as (Hx & Ha & Hg). specialize (Hrow c Hc).
        split; [exact Hx|]. split; [exact Hg|].
        destruct (Z.ltb_spec (c_row c) middle); [exact Ha | lia].
      * assert (Hrow : Forall (fun c => middle <= c_row c) cs2).
        { apply Forall_forall. intros c Hc.
          assert (In (c_row c) (map c_row cs2)) as Hin
            by (apply in_map; exact Hc).
          rewrite Hr2 in Hin. apply in_range in Hin. lia. }
        rewrite Forall_forall in *. intros c Hc.
        destruct (Hcs2 c Hc) as (Hx & Ha & Hg). specialize (Hrow c Hc).
        split; [exact Hx|]. split; [exact Hg|].
        destruct (Z.ltb_spec (c_row c) middle); [lia | exact Ha].
Qed.


(** X3: show_body in a column of the pool, [0 <= x < COLS - 1], with
    [0 <= tail <= middle <= head], writes inside the window only, so
    that no write of it can be refused, and touches neither the pool nor
    the options. It paints, in either colour mode, exactly the rows from
    the tail up to, not including, [min(head, LINES)], each once and top
    down, in its column, with glyphs of the glyph set. In gradient mode a
    row carries the colour of get_color; otherwise the rows above the
    middle carry colour pair 1 and the rows from the middle on carry it in
    bold. *)
Theorem show_body_rows head middle tail x w :
  0 <= x < COLS - 1 ->
  0 <= tail -> tail <= middle <= head ->
  exists w' cs,
    show_body head middle tail x w = Ok tt w' /\
    pool w' = pool w /\ options w' = options w /\
    screen w' = screen w ++ cs /\
    Forall in_bounds cs /\
    map c_row cs = range tail (Z.min head LINES) /\
    Forall (fun c =>
      c_col c = x /\ In (c_glyph c) MATRIX_CODE_CHARS /\
      c_attr c = if USE_GRADIENT then get_color (c_row c) head tail
                 else if c_row c <? middle then color_pair 1
                      else Z.lor (color_pair 1) A_BOLD) cs.
Proof.
  intros Hx Ht Hm.
  destruct (show_body_cells head middle tail x w Hm)
    as (w' & cs & E & Hp & Ho & Hs & Hr & Hcs).
  exists w', cs. repeat (split; [assumption|]).
  split; [|split; assumption].
  apply Forall_forall. intros c Hc.
  assert (In (c_row c) (map c_row cs)) as Hin by (apply in_map; exact Hc).
  rewrite Hr in Hin. apply in_range in Hin.
  rewrite Forall_forall in Hcs. destruct (Hcs c Hc) as (Hcol & _).
  unfold in_bounds. lia.
Qed.

End Painting.

(** ** A stream clears what it painted *)

Section Fading.
Context {env : Env}.

Lemma show_head_row t head x w :
  wp t (show_head head x) w (fun _ w' =>
    wrote (fun c => c_col c = x /\ c_row c = head) w w').
Proof.
  unfold show_head. destruct (head <? LINES).
  - wp_step random_char_spec as ch w1 Hq. apply wp_bind, wp_gets.
    eapply wp_mono;
      [apply (addstr_wrote t (fun c => c_col c = x /\ c_row c = head));
       split; reflexivity|].
    cbv beta. intros _ w2 Hp.
    eapply wrote_trans; [apply quiet_wrote|]; eauto.
  - apply wp_ret, wrote_refl.
Qed.

(** One iteration of [animate_rain], cell by cell: the blanks of
    show_tail come first, on the rows between the old tail and the new
    one, and whatever is painted after them lies on or below the new
    tail. *)
Lemma animate_next_cells a w :
  a_tail a < LINES -> 0 <= a_head a -> 0 <= a_max_length a ->
  let traw := a_head a - a_max_length a in
  exists w' cs,
    animate_next a w = Ok (Some (advance a)) w' /\
    pool w' = pool w /\ options w' = options w /\
    screen w'
    = (screen w
       ++ map (blank_cell (a_x a))
              (if traw <? 0 then []
               else range (Z.max 0 (traw - a_speed a)) (Z.min traw LINES)))
      ++ cs /\
    Forall (fun c => c_col c = a_x a /\ Z.max 0 traw <= c_row c) cs.
Proof.
  intros Ht Hh Hl traw.
  enough (wp true (animate_next a) w (fun r w' =>
            r = Some (advance a) /\ exists cs,
              pool w' = pool w /\ options w' = options w /\
              screen w'
              = (screen w
                 ++ map (blank_cell (a_x a))
                      (if traw <? 0 then []
                       else range (Z.max 0 (traw - a_speed a))
                                  (Z.min traw LINES)))
                ++ cs /\
              Forall (fun c => c_col c = a_x a /\ Z.max 0 traw <= c_row c)
                     cs)) as H.
  { apply wp_total_ok in H. destruct H as (r & w' & E & -> & cs & H).
    exists w', cs. split; [exact E | exact H]. }
  unfold animate_next. apply Z.ltb_lt in Ht. rewrite Ht. fold traw.
  set (mid := a_head a - a_max_length a / 2).
  pose proof (half_le _ Hl) as Hhalf.
  eapply wp_seq with (P := fun v w1 =>
    v = Z.max 0 traw /\ pool w1 = pool w /\ options w1 = options w /\
    screen w1
    = screen w ++ map (blank_cell (a_x a))
        (if traw <? 0 then []
         else range (Z.max 0 (traw - a_speed a)) (Z.min traw LINES))).
  - destruct (Z.ltb_spec traw 0).
    + apply wp_ret. cbn [map]. rewrite app_nil_r. repeat split. lia.
    + apply wp_bind. eapply ok_total; [apply for_blanks|].
      apply wp_ret. cbn. repeat split. lia.
  - cbv beta. intros v w1 (-> & Hp1 & Ho1 & Hs1).
    assert (Hmid : (if mid <? 0 then 0 else mid) = Z.max 0 mid)
      by (destruct (Z.ltb_spec mid 0); lia).
    rewrite Hmid.
    destruct (show_body_cells (a_head a) (Z.max 0 mid) (Z.max 0 traw)
                (a_x a) w1 ltac:(subst mid traw; lia))
      as (w2 & cs2 & E2 & Hp2 & Ho2 & Hs2 & Hr2 & Hcs2).
    apply wp_bind. eapply ok_total; [exact E2|].
    wp_step show_head_row as u w3 H3.
    destruct H3 as (Hp3 & Ho3 & cs3 & Hs3 & Hcs3).
    apply wp_ret. split.
    + unfold advance. f_equal.
    + exists (cs2 ++ cs3).
      split; [congruence|]. split; [congruence|]. split.
      * rewrite Hs3, Hs2, Hs1. now rewrite <- !app_assoc.
      * apply Forall_app. split.
        -- rewrite Forall_forall in *. intros c Hc.
           destruct (Hcs2 c Hc) as (Hx & _).
           split; [exact Hx|].
           assert (In (c_row c) (map c_row cs2)) as Hin
             by (apply in_map; exact Hc).
           rewrite Hr2 in Hin. apply in_range in Hin. lia.
        -- revert Hcs3. apply Forall_impl. intros c [Hx Hr].
           split; [exact Hx|]. subst traw. lia.
Qed.

(** The rows above the tail of a running stream show blanks, and stay
    so from one iteration to the next. *)
Lemma animate_next_blank a w w' :
  a_tail a = Z.max 0 (a_head a - a_speed a - a_max_length a) ->
  a_tail a < LINES -> 0 <= a_head a -> 0 <= a_max_length a ->
  (forall r, 0 <= r < Z.min (a_tail a) LINES ->
             shows_blank r (a_x a) (screen w)) ->
  animate_next a w = Ok (Some (advance a)) w' ->
  forall r, 0 <= r < Z.min (a_tail (advance a)) LINES ->
            shows_blank r (a_x a) (screen w').
Proof.
  intros HT Ht Hh Hl Hb E r Hr.
  destruct (animate_next_cells a w Ht Hh Hl)
    as (w1 & cs & E1 & _ & _ & Hs & Hcs).
  rewrite E in E1. injection E1 as <-.
  cbn [advance a_tail] in Hr. unfold shows_blank.
  rewrite Hs, cell_at_app. rewrite (cell_at_elsewhere r (a_x a) cs).
  2:{ revert Hcs. apply Forall_impl. intros c [_ Hc] _. lia. }
  rewrite cell_at_app.
  destruct (Z.ltb_spec (a_head a - a_max_length a) 0) as [Hneg|Hpos];
    [lia|].
  set (lo := Z.max 0 (a_head a - a_max_length a - a_speed a)) in *.
  set (hi := Z.min (a_head a - a_max_length a) LINES) in *.
  destruct (Z.lt_ge_cases r lo) as [Hlo|Hlo].
  - rewrite cell_at_elsewhere.
    + apply Hb. rewrite HT. subst lo. lia.
    + apply Forall_forall. intros c Hc. apply in_map_iff in Hc.
      destruct Hc as (i & <- & Hi). apply in_range in Hi. cbn. lia.
  - rewrite (cell_at_rows r (a_x a) (blank_cell (a_x a))).
    + eexists. split; [reflexivity|]. split; reflexivity.
    + intros i. split; reflexivity.
    + apply in_range. subst hi. lia.
Qed.

Lemma animate_iter_blank n : forall a w a' w',
  a_tail a = Z.max 0 (a_head a - a_speed a - a_max_length a) ->
  0 <= a_head a -> 0 <= a_max_length a -> 0 <= a_speed a ->
  (forall r, 0 <= r < Z.min (a_tail a) LINES ->
             shows_blank r (a_x a) (screen w)) ->
  animate_iter n a w = Ok (Some a') w' ->
  a_x a' = a_x a /\
  forall r, 0 <= r < Z.min (a_tail a') LINES ->
            shows_blank r (a_x a) (screen w').
Proof.
  induction n as [|n IH]; intros a w a' w' HT Hh Hl Hs Hb E;
    cbn [animate_iter] in E.
  - injection E as <- <-. split; [reflexivity | exact Hb].
  - unfold bind in E.
    destruct (animate_next a w) as [r w1| |] eqn:E1; try discriminate.
    pose proof (animate_next_ok a w r w1 Hh E1) as Hr.
    destruct (Z.ltb_spec (a_tail a) LINES) as [Ht|Ht];
      subst r; [|discriminate].
    assert (HT' : a_tail (advance a)
                  = Z.max 0 (a_head (advance a) - a_speed (advance a)
                             - a_max_length (advance a)))
      by (cbn [advance a_tail a_head a_speed a_max_length]; f_equal; lia).
    assert (Hb' : forall r, 0 <= r < Z.min (a_tail (advance a)) LINES ->
                    shows_blank r (a_x (advance a)) (screen w1))
      by (intros r Hr;
          exact (animate_next_blank a w w1 HT Ht Hh Hl Hb E1 r Hr)).
    exact (IH (advance a) w1 a' w' HT'
             ltac:(cbn [advance a_head]; lia) Hl Hs Hb' E).
Qed.

(** X4: a stream that has run to its end (of length [len >= 0] and
    speed [speed >= 0], in column [x]) leaves its whole column blank:
    whatever the screen showed before, every row of the screen in column
    [x] was last written by show_tail, with a space in colour pair 0.
    What the other columns show is as it was, and so are the pool and the
    options. *)
Theorem stream_leaves_column_blank x len speed n w a w' :
  0 <= len -> 0 <= speed ->
  animate_iter n (animate_rain x len speed) w = Ok (Some a) w' ->
  animate_next a w' = Ok None w' ->
  (forall r, 0 <= r < LINES -> shows_blank r x (screen w')) /\
  (forall r x', x' <> x ->
     cell_at r x' (screen w') = cell_at r x' (screen w)) /\
  pool w' = pool w /\ options w' = options w.
Proof.
  intros Hl Hs E Eend.
  pose proof (animate_iter_ok n (animate_rain x len speed) w _ w'
                ltac:(cbn; lia) ltac:(cbn; lia) E) as Hadv.
  assert (Hst : streaming len speed a).
  { eapply streaming_advances;
      [exact Hs | apply streaming_first | symmetry; exact Hadv]. }
  destruct Hst as (_ & _ & Hh & _).
  pose proof (animate_next_ok a w' _ _ Hh Eend) as Hnone.
  destruct (Z.ltb_spec (a_tail a) LINES) as [|Hfin]; [discriminate|].
  split; [|split].
  - destruct (animate_iter_blank n (animate_rain x len speed) w a w')
      as [_ Hb]; cbn [animate_rain a_tail a_head a_speed a_max_length a_x];
      try lia; try exact E.
    intros r Hr. apply Hb. lia.
  - pose proof (wp_ok true _ _ _ _ _
                  (animate_iter_spec true n (animate_rain x len speed) w
                     ltac:(cbn; lia) ltac:(cbn; lia)) E)
      as (_ & _ & _ & cs & Hsc & Hcs).
    intros r x' Hx. rewrite Hsc, cell_at_app.
    rewrite cell_at_elsewhere; [reflexivity|].
    revert Hcs. apply Forall_impl. intros c [Hc _] Hc'.
    cbn [animate_rain a_x] in Hc. congruence.
  - pose proof (wp_ok true _ _ _ _ _
                  (animate_iter_spec true n (animate_rain x len speed) w
                     ltac:(cbn; lia) ltac:(cbn; lia)) E)
      as (_ & Hp & Ho & _).
    split; assumption.
Qed.

End Fading.

(** ** The palette *)

Section PaletteFacts.
Context {env : Env}.
Variables COLOR_GREEN COLOR_BLACK : Z.

Lemma gradient_calls :
  can_change_color = true ->
  forall c, In c (snd (init_colors COLOR_GREEN COLOR_BLACK)) <->
    c = StartColor \/ c = InitColor COLOR_WHITE 1000 1000 1000 \/
    c = InitColor COLOR_BLACK 0 0 0 \/
    exists i, 0 <= i <= NUMBER_OF_COLOR /\
      (c = InitColor (START_COLOR_NUM + i) 0 (COLOR_STEP * i) 0 \/
       c = InitPair (START_COLOR_NUM + i) (START_COLOR_NUM + i) COLOR_BLACK).
Proof.
  intros Hg c. unfold init_colors. rewrite Hg. cbn [snd In].
  rewrite in_flat_map.
  assert (Hgreen : forall i,
            1000 - COLOR_STEP * NUMBER_OF_COLOR + COLOR_STEP * i
            = COLOR_STEP * i)
    by (intros i; unfold COLOR_STEP, NUMBER_OF_COLOR; lia).
  split.
  - intros [H|[H|[H|(i & Hi & Hc)]]].
    + now left.
    + right. now left.
    + right. right. now left.
    + right. right. right. exists i. apply in_range in Hi.
      split; [unfold NUMBER_OF_COLOR in *; lia|]. cbn [In] in Hc.
      rewrite Hgreen in Hc. destruct Hc as [Hc|[Hc|[]]]; subst c; auto.
  - intros [H|[H|[H|(i & Hi & Hc)]]].
    + now left.
    + right. now left.
    + right. right. now left.
    + right. right. right. exists i.
      split; [apply in_range; unfold NUMBER_OF_COLOR in *; lia|].
      cbn [In]. rewrite Hgreen. destruct Hc as [Hc|Hc]; subst c; auto.
Qed.


(** X6: every colour pair show_body paints with is one init_colors has
    initialised. In gradient mode a cell carries a pair [128 + k] with
    [0 <= k <= 50], which init_colors defined; otherwise it carries pair
    1, plain or in bold, which init_colors defined as green on black. *)
Theorem show_body_pairs_initialised head middle tail x w :
  exists w' cs,
    show_body head middle tail x w = Ok tt w' /\
    screen w' = screen w ++ cs /\
    Forall (fun c =>
      exists n fg bg,
        (c_attr c = color_pair n \/
         c_attr c = Z.lor (color_pair n) A_BOLD) /\
        In (InitPair n fg bg) (snd (init_colors COLOR_GREEN COLOR_BLACK)))
      cs.
Proof.
  enough (wp true (show_body head middle tail x) w (fun _ w' =>
            exists cs, screen w' = screen w ++ cs /\
              Forall (fun c =>
                exists n fg bg,
                  (c_attr c = color_pair n \/
                   c_attr c = Z.lor (color_pair n) A_BOLD) /\
                  In (InitPair n fg bg)
                     (snd (init_colors COLOR_GREEN COLOR_BLACK))) cs)) as H.
  { apply wp_total_ok in H. destruct H as ([] & w' & E & cs & H).
    exists w', cs. split; [exact E | exact H]. }
  destruct can_change_color eqn:Hg.
  - eapply wp_mono; [apply show_body_gradient; exact Hg|].
    cbv beta. intros _ w' (_ & _ & cs & Hs & Hcs).
    exists cs. split; [exact Hs|].
    revert Hcs. apply Forall_impl. intros c (Hr & _ & Ha).
    exists (START_COLOR_NUM + color_num (c_row c) head),
           (START_COLOR_NUM + color_num (c_row c) head), COLOR_BLACK.
    split; [left; exact Ha|].
    apply (gradient_calls Hg). right. right. right.
    exists (color_num (c_row c) head). split; [|now right].
    unfold color_num, NUMBER_OF_COLOR.
    destruct (Z.ltb_spec (50 - (head - c_row c) + 1) 0); lia.
  - unfold show_body, USE_GRADIENT. rewrite Hg.
    assert (Hin : In (InitPair 1 COLOR_GREEN COLOR_BLACK)
                     (snd (init_colors COLOR_GREEN COLOR_BLACK))).
    { unfold init_colors. rewrite Hg. cbn. auto. }
    eapply wp_seq; [apply (for_glyphs true x (fun _ => color_pair 1))|].
    cbv beta. intros _ w1 (_ & _ & cs1 & Hs1 & _ & Hcs1).
    eapply wp_mono;
      [apply (for_glyphs true x (fun _ => Z.lor (color_pair 1) A_BOLD))|].
    cbv beta. intros _ w2 (_ & _ & cs2 & Hs2 & _ & Hcs2).
    exists (cs1 ++ cs2). split; [rewrite Hs2, Hs1; now rewrite app_assoc|].
    apply Forall_app. split.
    + revert Hcs1. apply Forall_impl. intros c (_ & Ha & _).
      exists 1, COLOR_GREEN, COLOR_BLACK. auto.
    + revert Hcs2. apply Forall_impl. intros c (_ & Ha & _).
      exists 1, COLOR_GREEN, COLOR_BLACK. auto.
Qed.

End PaletteFacts.

(** ** More about the main loop *)

Section MainFacts.
Context {env : Env}.

Lemma wp_conj {A} t (m : M A) w (P Q : A -> world -> Prop) :
  wp t m w P -> wp t m w Q -> wp t m w (fun a w' => P a w' /\ Q a w').
Proof. unfold wp. destruct (m w); auto. Qed.

Lemma Forall_set_nth {A} (P : A -> Prop) a l : forall i,
  Forall P l -> P a -> Forall P (set_nth i a l).
Proof.
  induction l as [|y l IH]; intros [|i] Hl Ha; cbn [set_nth]; auto;
    inversion Hl; subst; constructor; auto.
Qed.

(** What [rain] draws for a new animation. *)
Lemma rain_loop_drawn fuel : forall w,
  wp false (rain_loop fuel) w (fun g _ =>
    match g with
    | RainNew => True
    | RainIn _ a => LINES / 2 <= a_max_length a <= LINES /\
                    1 <= a_speed a <= opt_speed (options w)
    end).
Proof.
  induction fuel as [|fuel IH]; intros w; [exact I|].
  cbn [rain_loop]. apply wp_bind, wp_gets.
  wp_step random_choice_spec as x w1 H. { discriminate. }
  destruct H as (_ & _ & Ho1 & _).
  wp_step pool_remove_spec as u w2 H. { discriminate. }
  destruct H as (_ & _ & Ho2 & _).
  wp_step randint_spec as len w3 H. { discriminate. }
  destruct H as (Hlen & _ & Ho3 & _).
  apply wp_bind, wp_gets.
  wp_step randint_spec as speed w4 H. { discriminate. }
  destruct H as (Hsp & _ & Ho4 & _).
  wp_step animate_next_spec as r w5 H. { cbn. lia. }
  cbn [animate_rain a_tail a_x] in H.
  destruct (0 <? LINES).
  - destruct H as (-> & _). apply wp_ret.
    cbn [advance animate_rain a_max_length a_speed].
    split; [exact Hlen|]. rewrite <- Ho1, <- Ho2, <- Ho3. exact Hsp.
  - destruct H as (Hr & Hw). subst r w5.
    wp_step pool_append_spec as u' w6 H. destruct H as (_ & Ho6 & _).
    eapply wp_mono; [apply IH|]. cbv beta. intros g _.
    replace (options w6) with (options w) by congruence. auto.
Qed.

Lemma main_step_drawn fuel l w :
  Inv l w -> Forall drawn (rains l) ->
  wp false (main_step fuel l) w (fun l' _ => Forall drawn (rains l')).
Proof.
  intros HI Hd. pose proof (proj2 (inv_opts _ _ HI)) as Hsp.
  pose proof (inv_gens _ _ HI) as Hg.
  destruct l as [p rs ks]. unfold main_step.
  cbn [pc rains keys] in *. destruct p as [|i| |].
  - wp_step add_rain_spec as rs' w1 H. destruct H as (_ & ->).
    apply wp_ret. cbn [rains]. destruct (_ && _); [|exact Hd].
    apply Forall_app. split; [exact Hd|]. repeat constructor.
  - destruct (nth_error rs i) as [r|] eqn:En; [|apply wp_ret; exact Hd].
    eapply wp_seq with (P := fun r' _ => drawn r').
    + destruct r as [|x a]; cbn [rain_next].
      * eapply wp_mono; [apply rain_loop_drawn|]. cbv beta.
        intros [|x a] _; [tauto|]. cbn [drawn]. now rewrite Hsp.
      * apply nth_error_In in En.
        assert (Ha : drawn (RainIn x a))
          by (rewrite Forall_forall in Hd; now apply Hd).
        assert (Hok : anim_ok x a)
          by (rewrite Forall_forall in Hg; exact (Hg _ En)).
        wp_step animate_next_spec as r w1 H.
        { destruct Hok as (_ & ? & _ & ? & _). lia. }
        destruct (a_tail a <? LINES).
        -- destruct H as (-> & _). apply wp_ret. exact Ha.
        -- destruct H as (Hr & Hw). subst r w1.
           wp_step pool_append_spec as u w2 H. destruct H as (_ & Ho & _).
           eapply wp_mono; [apply rain_loop_drawn|]. cbv beta.
           intros [|x' a'] _; [tauto|]. cbn [drawn].
           now rewrite Ho, Hsp.
    + cbv beta. intros r' w1 Hr. apply wp_ret. cbn [rains].
      now apply Forall_set_nth.
  - destruct (getch ks) as [ch ks'].
    eapply wp_seq; [apply wp_trivial|]. cbv beta. intros stop w1 _.
    apply wp_ret. exact Hd.
  - apply wp_ret. exact Hd.
Qed.

Lemma main_run_drawn fuel n : forall l w,
  Inv l w -> Forall drawn (rains l) ->
  wp false (main_run fuel n l) w (fun l' w' =>
    Inv l' w' /\ Forall drawn (rains l')).
Proof.
  induction n as [|n IH]; intros l w HI Hd; cbn [main_run].
  - apply wp_ret. auto.
  - eapply wp_seq.
    + apply wp_conj;
        [apply (main_step_inv false); [discriminate | exact HI]
        | apply main_step_drawn; assumption].
    + cbv beta. intros l1 w1 [HI1 Hd1]. now apply IH.
Qed.

Lemma main_drawn fuel n ks seed l w :
  main fuel n ks (boot seed) = Ok l w -> Forall drawn (rains l).
Proof.
  intros E.
  assert (Hrun : exists w0,
            main fuel n ks (boot seed)
            = main_run fuel n {| pc := AtAddRain; rains := []; keys := ks |}
                       w0 /\
            Inv {| pc := AtAddRain; rains := []; keys := ks |} w0).
  { eexists. split; [reflexivity|].
    exact (main_reach_inv fuel 0 ks seed _ _ eq_refl). }
  destruct Hrun as (w0 & E0 & HI0). rewrite E0 in E.
  exact (proj2 (wp_ok false _ _ _ _ _
                  (main_run_drawn fuel n _ w0 HI0 (Forall_nil _)) E)).
Qed.

Lemma held_news_length rs :
  (length (held rs) + news rs = length rs)%nat.
Proof.
  induction rs as [|r rs IH]; [reflexivity|].
  change (held (r :: rs)) with (holds r ++ held rs).
  rewrite length_app, news_cons. cbn [length].
  pose proof (holds_length r). lia.
Qed.

Lemma main_unfold fuel n ks seed :
  exists w0,
    main fuel n ks (boot seed)
    = main_run fuel n {| pc := AtAddRain; rains := []; keys := ks |} w0 /\
    pool w0 = range 0 (COLS - 1) /\
    opt_count (options w0) = COLS / 2.
Proof. eexists. split; [reflexivity|]. split; reflexivity. Qed.

(** X7: every stream the main loop holds, at any step, was drawn within
    bounds: its column is one of 0 .. COLS-2 and is the column its
    animation paints, its length lies between LINES//2 and LINES, and its
    speed between 1 and [1 + LINES//25], the bound config computed. *)
Theorem stream_parameters fuel n ks seed l w x a :
  main fuel n ks (boot seed) = Ok l w ->
  In (RainIn x a) (rains l) ->
  a_x a = x /\ 0 <= x < COLS - 1 /\
  LINES / 2 <= a_max_length a <= LINES /\
  1 <= a_speed a <= 1 + LINES / 25.
Proof.
  intros E Hin.
  pose proof (main_drawn _ _ _ _ _ _ E) as Hd.
  pose proof (main_reach_inv _ _ _ _ _ _ E) as HI.
  rewrite Forall_forall in Hd. specialize (Hd _ Hin). cbn [drawn] in Hd.
  pose proof (inv_gens _ _ HI) as Hg. rewrite Forall_forall in Hg.
  destruct (Hg _ Hin) as (Hx & _).
  split; [exact Hx|]. split; [|exact Hd].
  apply in_range. eapply Permutation_in; [exact (inv_part _ _ HI)|].
  apply in_or_app. right. unfold held. apply in_flat_map.
  exists (RainIn x a). split; [exact Hin | now left].
Qed.

(** X8: on a terminal with at least one line the main loop never fails
    and never hangs inside a step: for any number of steps, any keys and
    any random draws, no [random.choice] meets an empty pool, no
    [pool.remove] misses its column, no [randint] gets an empty range,
    and every [next(r)] yields within the first round of [rain]'s loop. *)
Theorem main_never_fails fuel n ks seed :
  0 < LINES -> (1 <= fuel)%nat ->
  exists l w, main fuel n ks (boot seed) = Ok l w.
Proof.
  intros HL Hf.
  destruct (wp_total_ok _ _ _
              (main_inv true fuel n ks seed (fun _ => conj HL Hf)))
    as (l & w & E & _).
  exists l, w. exact E.
Qed.


(** X10: after config the loop never changes [options['count']] or
    [options['speed']]: at every step they are [COLS // 2] and
    [1 + LINES // 25], whatever keys were pressed; only
    [options['head']] moves. *)
Theorem options_fixed fuel n ks seed l w :
  main fuel n ks (boot seed) = Ok l w ->
  opt_count (options w) = COLS / 2 /\
  opt_speed (options w) = 1 + LINES / 25.
Proof.
  intros E. exact (inv_opts _ _ (main_reach_inv _ _ _ _ _ _ E)).
Qed.

(** X11: when the loop is about to call add_rain every generator holds a
    column, so the free columns are the COLS-1 usable ones less the
    number of streams. With three columns or more the pool is then never
    empty, and add_rain appends exactly when there are fewer than
    [COLS // 2] streams: the pool never blocks a new stream. *)
Theorem pool_occupancy fuel n ks seed l w :
  main fuel n ks (boot seed) = Ok l w ->
  pc l = AtAddRain ->
  length (held (rains l)) = length (rains l) /\
  Z.of_nat (length (pool w)) + Z.of_nat (length (rains l))
  = Z.max 0 (COLS - 1) /\
  (3 <= COLS ->
   pool w <> [] /\
   add_rain (rains l) w
   = Ok (if Z.of_nat (length (rains l)) <? COLS / 2
         then rains l ++ [RainNew] else rains l) w).
Proof.
  intros E Hpc. pose proof (main_reach_inv _ _ _ _ _ _ E) as HI.
  pose proof (inv_swept _ _ HI) as Hn. rewrite Hpc in Hn.
  cbn beta iota in Hn.
  pose proof (held_news_length (rains l)) as Hh.
  pose proof (Permutation_length (inv_part _ _ HI)) as Hlen.
  rewrite length_app in Hlen.
  pose proof (range_length 0 (COLS - 1)) as Hr.
  pose proof (inv_count _ _ HI) as Hcnt.
  rewrite (proj1 (inv_opts _ _ HI)) in Hcnt.
  assert (Hsum : Z.of_nat (length (pool w)) + Z.of_nat (length (rains l))
                 = Z.max 0 (COLS - 1)).
  { rewrite <- Hlen in Hr. rewrite Nat2Z.inj_add in Hr.
    rewrite Hn, Nat.add_0_r in Hh. rewrite <- Hh.
    rewrite Z.sub_0_r in Hr. exact Hr. }
  split; [lia|]. split; [exact Hsum|]. intros HC.
  assert (Hhalf : COLS / 2 <= COLS - 2).
  { pose proof (Z.mul_div_le COLS 2 ltac:(lia)). lia. }
  assert (Hne : pool w <> []).
  { intros Hp. rewrite Hp in Hlen. cbn [length] in Hlen. lia. }
  split; [exact Hne|].
  destruct (wp_total_ok _ _ _ (add_rain_spec true (rains l) w))
    as (rs & w1 & Ea & -> & ->).
  rewrite Ea, (proj1 (inv_opts _ _ HI)).
  destruct (pool w); [congruence|]. cbn [negb].
  now rewrite andb_true_r.
Qed.

End MainFacts.

(** ** The geometry of a stream *)

Section StreamFacts.
Context {env : Env}.

Lemma advances_closed n : forall a a',
  advances n a = Some a' ->
  a_x a' = a_x a /\ a_max_length a' = a_max_length a /\
  a_speed a' = a_speed a /\
  a_head a' = a_head a + Z.of_nat n * a_speed a /\
  ((0 < n)%nat ->
   a_middle a'
   = Z.max 0 (a_head a' - a_speed a - a_max_length a / 2) /\
   a_tail a' = Z.max 0 (a_head a' - a_speed a - a_max_length a)).
Proof.
  induction n as [|n IH]; intros a a'; cbn [advances].
  - intros [= <-]. repeat split; try lia.
  - destruct (a_tail a <? LINES); [|discriminate]. intros E.
    destruct (IH _ _ E) as (Hx & Hl & Hs & Hh & Hrest).
    cbn [advance a_x a_max_length a_speed a_head] in *.
    split; [exact Hx|]. split; [exact Hl|]. split; [exact Hs|].
    split; [lia|]. intros _.
    destruct n as [|n].
    + cbn [advances] in E. injection E as <-.
      cbn [advance a_middle a_tail a_head]. split; f_equal; lia.
    + apply Hrest. lia.
Qed.

(** X12: the frame of a stream after its n-th yield, in closed form: the
    column, the length and the speed are those it was created with, the
    head is [n * speed], and from the first yield on the middle and the
    tail are [max(0, (n-1) * speed - length//2)] and
    [max(0, (n-1) * speed - length)]. Neither the random glyphs nor what
    is on the screen have any part in it. *)
Theorem stream_closed_form x len speed n w a w' :
  0 <= speed ->
  animate_iter n (animate_rain x len speed) w = Ok (Some a) w' ->
  a_x a = x /\ a_max_length a = len /\ a_speed a = speed /\
  a_head a = Z.of_nat n * speed /\
  ((0 < n)%nat ->
   a_middle a = Z.max 0 ((Z.of_nat n - 1) * speed - len / 2) /\
   a_tail a = Z.max 0 ((Z.of_nat n - 1) * speed - len)).
Proof.
  intros Hs E.
  apply animate_iter_ok in E; [|cbn; lia..].
  destruct (advances_closed n _ _ (eq_sym E)) as (Hx & Hl & Hsp & Hh & Hr).
  cbn [animate_rain a_x a_max_length a_speed a_head] in *.
  split; [exact Hx|]. split; [exact Hl|]. split; [exact Hsp|].
  split; [lia|]. intros Hn. destruct (Hr Hn) as [Hm Ht].
  rewrite Hm, Ht, Hh. split; f_equal; lia.
Qed.

End StreamFacts.

(** ** The sweep *)

Section Sweep.
Context {env : Env}.

Lemma rain_next_resumed fuel g w :
  gen_ok g -> wp false (rain_next fuel g) w (fun g' _ => resumed g g').
Proof.
  intros Hg. destruct g as [|x a]; cbn [resumed].
  - cbn [rain_next]. eapply wp_mono.
    + apply rain_loop_spec. discriminate.
    + cbv beta. intros g' w' (x & a & -> & _ & Hh & _). eauto.
  - eapply wp_mono.
    + apply (rain_next_spec false fuel x a w Hg). discriminate.
    + cbv beta. intros g' w' H. destruct (a_tail a <? LINES).
      * apply H.
      * destruct H as (x' & a' & -> & _ & Hh & _). eauto.
Qed.

Lemma nth_error_middle {A} (l1 : list A) r l2 :
  nth_error (l1 ++ r :: l2) (length l1) = Some r.
Proof. induction l1; cbn; auto. Qed.

(** The sweep from index [length done] on: every generator still to do
    is resumed once, in order, and the others are left alone. *)
Lemma sweep_spec fuel todo : forall done ks w,
  Inv {| pc := AtNext (length done); rains := done ++ todo; keys := ks |} w ->
  wp false
    (main_run fuel (length todo)
       {| pc := AtNext (length done); rains := done ++ todo; keys := ks |})
    w
    (fun l' w' =>
       Inv l' w' /\ pc l' = AtNext (length done + length todo) /\
       keys l' = ks /\
       exists todo', rains l' = done ++ todo' /\ Forall2 resumed todo todo').
Proof.
  induction todo as [|r todo IH]; intros done ks w HI;
    cbn [length main_run].
  - apply wp_ret. split; [exact HI|]. cbn [pc keys rains].
    split; [f_equal; lia|]. split; [reflexivity|].
    exists []. split; [reflexivity | constructor].
  - eapply wp_seq with (P := fun l1 w1 =>
      Inv l1 w1 /\ exists r',
        l1 = {| pc := AtNext (S (length done));
                rains := done ++ r' :: todo; keys := ks |} /\
        resumed r r').
    + apply wp_conj.
      * apply (main_step_inv false); [discriminate | exact HI].
      * unfold main_step. cbn [pc rains keys].
        rewrite nth_error_middle.
        eapply wp_seq; [apply rain_next_resumed|].
        -- pose proof (inv_gens _ _ HI) as Hg. cbn [rains] in Hg.
           apply Forall_app in Hg. destruct Hg as [_ Hg].
           now inversion Hg.
        -- cbv beta. intros r' w1 Hr. apply wp_ret.
           exists r'. rewrite set_nth_app. auto.
    + cbv beta. intros l1 w1 (HI1 & r' & -> & Hr).
      replace (S (length done)) with (length (done ++ [r'])) in *
        by (rewrite length_app; cbn; lia).
      replace (done ++ r' :: todo) with ((done ++ [r']) ++ todo) in *
        by (now rewrite <- app_assoc).
      eapply wp_mono; [apply IH; exact HI1|].
      cbv beta. intros l2 w2 (HI2 & Hpc & Hk & todo' & Hrs & Hall).
      split; [exact HI2|]. split.
      { rewrite Hpc. f_equal. rewrite length_app. cbn [length]. lia. }
      split; [exact Hk|].
      exists (r' :: todo'). split.
      * rewrite Hrs. now rewrite <- app_assoc.
      * now constructor.
Qed.

(** X13: one sweep of [for r in rains: next(r)] resumes every generator
    of the list exactly once, in list order. Starting at index 0 with k
    generators, after k steps the loop stands behind the last of them,
    the list has kept its length, and each generator is exactly one
    [next] further: a running stream has advanced by one iteration in
    its own column, a new or ended one is one iteration into a new
    animation. The step after that leaves the sweep for the key
    handling and changes nothing. *)
Theorem sweep_resumes_each_once fuel n ks seed l w l' w' :
  main fuel n ks (boot seed) = Ok l w ->
  pc l = AtNext 0 ->
  main_run fuel (length (rains l)) l w = Ok l' w' ->
  pc l' = AtNext (length (rains l)) /\
  length (rains l') = length (rains l) /\
  Forall2 resumed (rains l) (rains l') /\
  main_step fuel l' w'
  = Ok {| pc := AtGetch; rains := rains l'; keys := keys l' |} w'.
Proof.
  intros E Hpc Erun. pose proof (main_reach_inv _ _ _ _ _ _ E) as HI.
  destruct l as [p rs k0]. cbn [pc rains] in *. subst p.
  pose proof (wp_ok false _ _ _ _ _ (sweep_spec fuel rs [] k0 w HI) Erun)
    as (_ & Hpc' & _ & todo' & Hrs & Hall).
  cbn [length app Nat.add] in *.
  split; [exact Hpc'|]. rewrite Hrs.
  pose proof (Forall2_length Hall) as Hlen.
  split; [now symmetry|]. split; [exact Hall|].
  unfold main_step. rewrite Hpc', Hrs.
  replace (nth_error todo' (length rs)) with (@None rain_gen); [reflexivity|].
  symmetry. apply nth_error_None. lia.
Qed.

End Sweep.

(** ** The further properties on the terminals *)

Section More20x10.
#[local] Existing Instance term_20x10.

Lemma show_tail_blanks_witness :
  0 <= 3 < COLS - 1 /\
  show_tail 7 3 2 (boot 0)
  = Ok tt {| pool := pool (boot 0); options := options (boot 0);
             rng := rng (boot 0);
             screen := [blank_cell 3 5; blank_cell 3 6] |} /\
  Forall in_bounds [blank_cell 3 5; blank_cell 3 6].
Proof.
  split; [vm_compute; split; [discriminate | reflexivity]|].
  destruct (show_tail_blanks (env := term_20x10) 7 3 2 (boot 0)
              ltac:(vm_compute; split; [discriminate | reflexivity]))
    as (E & Hb & _).
  split; [exact E | exact Hb].
Defined.

Lemma show_body_rows_witness :
  0 <= 3 < COLS - 1 /\ 0 <= 0 /\ 0 <= 2 <= 5 /\
  exists w' cs,
    show_body 5 2 0 3 (boot 0) = Ok tt w' /\
    screen w' = cs /\ Forall in_bounds cs /\
    map c_row cs = [0; 1; 2; 3; 4].
Proof.
  split; [vm_compute; split; [discriminate | reflexivity]|].
  split; [lia|]. split; [lia|].
  destruct (show_body_rows (env := term_20x10) 5 2 0 3 (boot 0)
              ltac:(vm_compute; split; [discriminate | reflexivity])
              ltac:(lia) ltac:(lia))
    as (w' & cs & E & _ & _ & Hs & Hb & Hr & _).
  exists w', cs. split; [exact E|]. split; [exact Hs|].
  split; [exact Hb | exact Hr].
Defined.

Lemma stream_leaves_column_blank_witness :
  0 <= 10 /\ 0 <= 2 /\
  exists a w',
    animate_iter 16 (animate_rain 3 10 2) (boot 0) = Ok (Some a) w' /\
    animate_next a w' = Ok None w' /\
    forall r, 0 <= r < LINES -> shows_blank r 3 (screen w').
Proof.
  split; [lia|]. split; [lia|].
  eexists _, _. split; [vm_compute; reflexivity|].
  split; [vm_compute; reflexivity|].
  apply (proj1 (stream_leaves_column_blank (env := term_20x10)
                  3 10 2 16 (boot 0) _ _ ltac:(lia) ltac:(lia)
                  ltac:(vm_compute; reflexivity)
                  ltac:(vm_compute; reflexivity))).
Defined.


Lemma stream_parameters_witness :
  exists l w a,
    main 1 6 [] (boot 0) = Ok l w /\
    In (RainIn 3 a) (rains l) /\
    a_max_length a = 20 /\ a_speed a = 1 /\
    LINES / 2 <= a_max_length a <= LINES /\
    1 <= a_speed a <= 1 + LINES / 25.
Proof.
  eexists _, _, _. split; [vm_compute; reflexivity|].
  split; [left; reflexivity|].
  split; [reflexivity|]. split; [reflexivity|].
  apply (stream_parameters (env := term_20x10) 1 6 [] 0 _ _ 3 _
           ltac:(vm_compute; reflexivity) ltac:(left; reflexivity)).
Defined.

Lemma main_never_fails_witness :
  0 < LINES /\ (1 <= 1)%nat /\
  exists l w, main 1 40 [ERR; ord_space; ord_h] (boot 0) = Ok l w.
Proof.
  split; [reflexivity|]. split; [lia|].
  apply (main_never_fails (env := term_20x10) 1 40 [ERR; ord_space; ord_h] 0);
    [reflexivity | lia].
Defined.

Lemma options_fixed_witness :
  exists l w,
    main 1 8 [ord_h; ord_h] (boot 0) = Ok l w /\
    opt_count (options w) = 5 /\ opt_speed (options w) = 1 /\
    opt_count (options w) = COLS / 2 /\
    opt_speed (options w) = 1 + LINES / 25.
Proof.
  eexists _, _. split; [vm_compute; reflexivity|].
  split; [reflexivity|]. split; [reflexivity|].
  eapply (options_fixed (env := term_20x10) 1 8 [ord_h; ord_h] 0).
  vm_compute; reflexivity.
Defined.

Lemma pool_occupancy_witness :
  exists l w,
    main 1 4 [] (boot 0) = Ok l w /\ pc l = AtAddRain /\
    length (pool w) = 8%nat /\ length (rains l) = 1%nat /\
    Z.of_nat (length (pool w)) + Z.of_nat (length (rains l))
    = Z.max 0 (COLS - 1).
Proof.
  eexists _, _. split; [vm_compute; reflexivity|].
  split; [reflexivity|]. split; [reflexivity|]. split; [reflexivity|].
  apply (pool_occupancy (env := term_20x10) 1 4 [] 0 _ _
           ltac:(vm_compute; reflexivity) eq_refl).
Defined.

Lemma stream_closed_form_witness :
  0 <= 2 /\
  exists a w',
    animate_iter 10 (animate_rain 3 10 2) (boot 0) = Ok (Some a) w' /\
    a_head a = Z.of_nat 10 * 2 /\
    a_tail a = Z.max 0 ((Z.of_nat 10 - 1) * 2 - 10).
Proof.
  split; [lia|].
  eexists _, _. split; [vm_compute; reflexivity|].
  destruct (stream_closed_form (env := term_20x10) 3 10 2 10 (boot 0) _ _
              ltac:(lia) ltac:(vm_compute; reflexivity))
    as (_ & _ & _ & Hh & Hr).
  split; [exact Hh|]. exact (proj2 (Hr ltac:(lia))).
Defined.

Lemma sweep_resumes_each_once_witness :
  exists l w l' w',
    main 1 5 [] (boot 0) = Ok l w /\ pc l = AtNext 0 /\
    main_run 1 (length (rains l)) l w = Ok l' w' /\
    length (rains l) = 2%nat /\
    pc l' = AtNext 2 /\ Forall2 resumed (rains l) (rains l').
Proof.
  eexists _, _, _, _. split; [vm_compute; reflexivity|].
  split; [reflexivity|]. split; [vm_compute; reflexivity|].
  split; [reflexivity|].
  destruct (sweep_resumes_each_once (env := term_20x10) 1 5 [] 0 _ _ _ _
              ltac:(vm_compute; reflexivity) eq_refl
              ltac:(vm_compute; reflexivity)) as (Hp & _ & Hall & _).
  split; [exact Hp | exact Hall].
Defined.

End More20x10.

Section On0x4.
#[local] Existing Instance term_0x4.


End On0x4.

(** ** Keys *)

Section Keys.
Context {env : Env}.

Lemma handle_key_stop t ch w :
  wp t (handle_key ch) w (fun stop _ =>
    stop = true -> ch <> ERR /\ ch <> ord_space /\ ch <> ord_h).
Proof.
  unfold handle_key.
  destruct (Z.eqb_spec ch ERR); cbn [negb andb];
    [apply wp_ret; discriminate|].
  destruct (Z.eqb_spec ch ord_space); cbn [negb andb];
    [apply wp_ret; discriminate|].
  destruct (Z.eqb_spec ch ord_h).
  - eapply wp_seq; [apply update_style_spec|]. cbv beta. intros u w1 _.
    apply wp_ret. discriminate.
  - apply wp_ret. auto.
Qed.

(** The loop has stopped only on a key that stops it, and the keys still
    to be read are among those it was given. *)
Lemma main_step_keys ks fuel l w :
  (forall k, In k (keys l) -> In k ks) ->
  (pc l = Stopped ->
   exists k, In k ks /\ k <> ERR /\ k <> ord_space /\ k <> ord_h) ->
  wp false (main_step fuel l) w (fun l' _ =>
    (forall k, In k (keys l') -> In k ks) /\
    (pc l' = Stopped ->
     exists k, In k ks /\ k <> ERR /\ k <> ord_space /\ k <> ord_h)).
Proof.
  intros Hsub Hst. destruct l as [p rs k0]. unfold main_step.
  cbn [pc rains keys] in *. destruct p as [|i| |].
  - eapply wp_seq; [apply wp_trivial|]. cbv beta. intros rs' w1 _.
    apply wp_ret. cbn [pc keys]. split; [exact Hsub | discriminate].
  - destruct (nth_error rs i).
    + eapply wp_seq; [apply wp_trivial|]. cbv beta. intros r' w1 _.
      apply wp_ret. cbn [pc keys]. split; [exact Hsub | discriminate].
    + apply wp_ret. cbn [pc keys]. split; [exact Hsub | discriminate].
  - destruct k0 as [|k k0]; cbn [getch].
    + eapply wp_seq; [apply handle_key_stop|]. cbv beta.
      intros stop w1 Hstop. apply wp_ret. cbn [pc keys].
      split; [intros k []|]. destruct stop; [|discriminate].
      destruct (Hstop eq_refl) as [H _]. congruence.
    + eapply wp_seq; [apply handle_key_stop|]. cbv beta.
      intros stop w1 Hstop. apply wp_ret. cbn [pc keys].
      split; [intros k' Hk'; apply Hsub; now right|].
      destruct stop; [|discriminate]. intros _.
      exists k. split; [apply Hsub; now left | now apply Hstop].
  - apply wp_ret. auto.
Qed.

Lemma main_run_keys ks fuel n : forall l w,
  (forall k, In k (keys l) -> In k ks) ->
  (pc l = Stopped ->
   exists k, In k ks /\ k <> ERR /\ k <> ord_space /\ k <> ord_h) ->
  wp false (main_run fuel n l) w (fun l' _ =>
    pc l' = Stopped ->
    exists k, In k ks /\ k <> ERR /\ k <> ord_space /\ k <> ord_h).
Proof.
  induction n as [|n IH]; intros l w Hsub Hst; cbn [main_run].
  - apply wp_ret. exact Hst.
  - eapply wp_seq; [apply (main_step_keys ks); assumption|].
    cbv beta. intros l1 w1 [H1 H2]. now apply IH.
Qed.

Lemma main_run_stopped fuel n : forall l w,
  pc l = Stopped -> main_run fuel n l w = Ok l w.
Proof.
  induction n as [|n IH]; intros l w Hpc; cbn [main_run]; [reflexivity|].
  unfold bind, main_step. rewrite Hpc. cbn. now apply IH.
Qed.

(** X14: the loop stops on a key press and on nothing else. If the loop
    has stopped, one of the keys it was given is neither the no-key
    value ERR, nor the space, nor h; so with no key pressed, or only
    spaces and h, it never stops. Once stopped it stays as it is: no
    further step writes a cell or touches the pool. *)
Theorem stops_only_on_key fuel n ks seed l w :
  main fuel n ks (boot seed) = Ok l w ->
  (pc l = Stopped ->
   (exists k, In k ks /\ k <> ERR /\ k <> ord_space /\ k <> ord_h) /\
   forall m, main_run fuel m l w = Ok l w) /\
  (Forall (fun k => k = ERR \/ k = ord_space \/ k = ord_h) ks ->
   pc l <> Stopped).
Proof.
  intros E.
  assert (Hst : pc l = Stopped ->
            exists k, In k ks /\ k <> ERR /\ k <> ord_space /\ k <> ord_h).
  { destruct (main_unfold fuel n ks seed) as (w0 & E0 & _).
    rewrite E0 in E.
    refine (wp_ok false _ _ _ _ _ (main_run_keys ks fuel n _ w0 _ _) E).
    - intros k Hk. exact Hk.
    - discriminate. }
  split.
  - intros Hpc. split; [now apply Hst|].
    intros m. now apply main_run_stopped.
  - intros Hall Hpc. destruct (Hst Hpc) as (k & Hin & H1 & H2 & H3).
    rewrite Forall_forall in Hall. specialize (Hall k Hin). tauto.
Qed.

End Keys.

Section Keys20x10.
#[local] Existing Instance term_20x10.

Lemma stops_only_on_key_witness :
  exists l w,
    main 1 9 [ord_h; 113] (boot 0) = Ok l w /\
    pc l = Stopped /\
    (exists k, In k [ord_h; 113] /\
               k <> ERR /\ k <> ord_space /\ k <> ord_h) /\
    main_run 1 7 l w = Ok l w.
Proof.
  eexists _, _. split; [vm_compute; reflexivity|].
  split; [reflexivity|].
  destruct (proj1 (stops_only_on_key (env := term_20x10)
                     1 9 [ord_h; 113] 0 _ _
                     ltac:(vm_compute; reflexivity)) eq_refl)
    as [Hk Hm].
  split; [exact Hk | exact (Hm 7%nat)].
Defined.

End Keys20x10.
